(** * Timing and synchronisation engine of the Excalidraw video pipeline

    A shallow embedding of the scheduling logic of [ExcalidrawAnimator]
    (animation/animator.js) and of the narration synchroniser of
    [EnhancedExcalidrawPipeline] and [VoiceNarrator.createAudioTimeline].

    Conventions of the embedding.
    - JavaScript numbers are exact rationals ([Q]); rounding of IEEE doubles
      is not modelled.  Where the source can produce [NaN] or an infinity
      (the division in [calculateAnimationSpeed]) the result type [jsnum]
      carries them explicitly.
    - [a || b] on numbers is [orQ]/[orZ]: the right operand is taken when the
      left one is absent or zero.
    - A template literal with interpolated numbers is kept as the sequence of
      its chunks ([jsstr]); numbers are not printed.
    - [console.log], directory creation and file writes leave no trace in the
      returned values and are omitted.  [Math.random] and [Date.now] are
      calls to an explicit oracle ([env]) with a call counter.
    - The [groups] object is a finite map keyed by the primary group id;
      group ids are assumed not to be names of [Object.prototype] members. *)

From Stdlib Require Import QArith Qround Qminmax Lqa ZArith Lia Ascii String List.
From Stdlib Require Import Sorted Permutation.
From Stdlib Require DecimalString DecimalNat.
From stdpp Require Import gmap strings list fin_maps.

Local Open Scope string_scope.
Local Open Scope list_scope.
Local Open Scope Q_scope.

(** ** Numbers *)

Definition orQ (a : option Q) (b : Q) : Q :=
  match a with
  | Some v => if Qeq_bool v 0 then b else v
  | None => b
  end.

Definition orZ (a b : Z) : Z := if Z.eqb a 0 then b else a.

(** Chunks of a template literal. *)
Inductive tok :=
| T (s : string)
| N (q : Q).

Definition jsstr := list tok.

(** ** The order/duration hint encoded in an element id

    [element.id.match(new RegExp(`${key}:(-?\\d+)`))]: the leftmost position
    at which [key], a colon, an optional minus sign and at least one decimal
    digit follow each other; the capture is the sign with the longest run of
    digits. *)

Definition is_digit (c : ascii) : bool :=
  (Nat.leb 48 (nat_of_ascii c) && Nat.leb (nat_of_ascii c) 57)%bool.

Fixpoint take_digits (s : string) : string :=
  match s with
  | String c s' => if is_digit c then String c (take_digits s') else EmptyString
  | EmptyString => EmptyString
  end.

Fixpoint strip_prefix (p s : string) : option string :=
  match p, s with
  | EmptyString, _ => Some s
  | String a p', String b s' => if Ascii.eqb a b then strip_prefix p' s' else None
  | String _ _, EmptyString => None
  end.

Definition minus_sign : ascii := "-"%char.

Definition match_here (key s : string) : option string :=
  match strip_prefix (key +:+ ":") s with
  | Some rest =>
      match rest with
      | String c rest' =>
          if Ascii.eqb c minus_sign then
            match take_digits rest' with
            | EmptyString => None
            | ds => Some (String minus_sign ds)
            end
          else
            match take_digits rest with
            | EmptyString => None
            | ds => Some ds
            end
      | EmptyString => None
      end
  | None => None
  end.

Fixpoint regex_match (key s : string) : option string :=
  match match_here key s with
  | Some c => Some c
  | None =>
      match s with
      | String _ s' => regex_match key s'
      | EmptyString => None
      end
  end.

Definition digit_val (c : ascii) : Z := (Z.of_nat (nat_of_ascii c) - 48)%Z.

Fixpoint parse_digits (acc : Z) (s : string) : Z :=
  match s with
  | String c s' => parse_digits (10 * acc + digit_val c)%Z s'
  | EmptyString => acc
  end.

(** [Number(match[1])] on a capture of the pattern above. *)
Definition Number (capture : string) : Z :=
  match capture with
  | String c ds => if Ascii.eqb c minus_sign then (- parse_digits 0 ds)%Z
                   else parse_digits 0 capture
  | EmptyString => 0%Z
  end.

(** ** Drawing elements *)

Record element := {
  el_id : string;
  el_type : string;
  el_x : option Q;
  el_y : option Q;
  el_width : option Q;
  el_height : option Q;
  el_groupIds : list string;          (* [element.groupIds || []] *)
  el_backgroundColor : option string;
  el_roundness : bool;                (* truthiness of [element.roundness] *)
  el_text : option string;
  el_fontSize : option Q;
  el_points : option (list (Q * Q));
  el_created : option Q;
  el_versionNonce : option Q
}.

(** [extractNumberFromElement(element, key)]:
    [(match && Number(match[1])) || 0]. *)
Definition extractNumberFromElement (e : element) (key : string) : Z :=
  match regex_match key (el_id e) with
  | Some c => orZ (Number c) 0
  | None => 0%Z
  end.

(** ** OrderResolver *)

(** The comparator passed to [sort]. *)
Definition elementTime (e : element) : Q :=
  orQ (el_created e) (orQ (el_versionNonce e) 0).

Definition compareElements (a b : element) : Q :=
  let aOrder := extractNumberFromElement a "animateOrder" in
  let bOrder := extractNumberFromElement b "animateOrder" in
  if (Z.eqb aOrder 0 && Z.eqb bOrder 0)%bool then
    elementTime a - elementTime b
  else
    inject_Z aOrder - inject_Z bOrder.

(** [Array.prototype.sort] is stable; with a comparator that is a total
    preorder every stable sort returns the same array, here by insertion. *)
Section Sort.
Context {A : Type} (cmp : A -> A -> Q).

Fixpoint sort_insert (x : A) (l : list A) : list A :=
  match l with
  | [] => [x]
  | y :: l' => if Qle_bool (cmp x y) 0 then x :: y :: l' else y :: sort_insert x l'
  end.

Fixpoint sort_by (l : list A) : list A :=
  match l with
  | [] => []
  | x :: l' => sort_insert x (sort_by l')
  end.
End Sort.

Definition sortElementsByDaiShiOrder (elements : list element) : list element :=
  sort_by compareElements elements.

(** The order and the ties a comparator induces. *)
Definition cmp_le {A} (cmp : A -> A -> Q) (a b : A) : Prop := cmp a b <= 0.
Definition cmp_eqv {A} (cmp : A -> A -> Q) (z y : A) : bool := Qeq_bool (cmp z y) 0.

(** ** DescriptorFactory *)

Definition truthy_string (o : option string) : bool :=
  match o with
  | Some s => negb (String.eqb s EmptyString)
  | None => false
  end.

(** [element.backgroundColor && element.backgroundColor !== 'transparent'] *)
Definition hasFill (e : element) : bool :=
  match el_backgroundColor e with
  | Some c => (negb (String.eqb c EmptyString) && negb (String.eqb c "transparent"))%bool
  | None => false
  end.

Inductive animationType :=
| TyPath | TyPathWithFill | TyPolygon | TyText | TyFreedraw | TyImage | TyGeneric.

Definition getElementAnimationType (e : element) : animationType :=
  let t := el_type e in
  if (String.eqb t "line" || String.eqb t "arrow")%bool then
    if hasFill e then
      (if el_roundness e then TyPathWithFill else TyPolygon)
    else
      (if el_roundness e then TyPath else TyPolygon)
  else if (String.eqb t "rectangle" || String.eqb t "diamond")%bool then TyPolygon
  else if String.eqb t "ellipse" then TyPath
  else if String.eqb t "text" then TyText
  else if String.eqb t "freedraw" then TyFreedraw
  else if String.eqb t "image" then TyImage
  else TyGeneric.

Record pathData := {
  pd_type : string;
  pd_segments : Q;
  pd_length : option Q      (* [None]: NaN, a missing width or height *)
}.

Definition generatePathData (e : element) : pathData :=
  {| pd_type := el_type e;
     pd_segments := 4;
     pd_length := match el_width e, el_height e with
                  | Some w, Some h => Some (w + h)
                  | _, _ => None
                  end |}.

Definition segmentPath (pd : pathData) : list (nat * Q) :=
  let segmentCount := Z.max 1 (Qfloor (pd_segments pd)) in
  map (fun i : nat => (i, (inject_Z (Z.of_nat i) + 1) / inject_Z segmentCount))
      (seq 0 (Z.to_nat segmentCount)).

(** *** Pointer paths *)

Definition generateLinePointerPath (e : element) : jsstr :=
  let startX := orQ (el_x e) 0 in
  let startY := orQ (el_y e) 0 in
  let endX := startX + orQ (el_width e) 100 in
  let endY := startY + orQ (el_height e) 100 in
  [T "M "; N startX; T " "; N startY; T " L "; N endX; T " "; N endY].

Definition generateRectPointerPath (e : element) : jsstr :=
  let x := orQ (el_x e) 0 in
  let y := orQ (el_y e) 0 in
  let w := orQ (el_width e) 100 in
  let h := orQ (el_height e) 100 in
  [T "M "; N x; T " "; N y; T " L "; N (x + w); T " "; N y;
   T " L "; N (x + w); T " "; N (y + h); T " L "; N x; T " "; N (y + h); T " Z"].

Definition generateEllipsePointerPath (e : element) : jsstr :=
  let cx := orQ (el_x e) 0 + orQ (el_width e) 100 / 2 in
  let cy := orQ (el_y e) 0 + orQ (el_height e) 100 / 2 in
  let rx := orQ (el_width e) 100 / 2 in
  let ry := orQ (el_height e) 100 / 2 in
  [T "M "; N (cx + rx); T " "; N cy;
   T " C "; N (cx + rx); T " "; N (cy - ry * 0.55); T " "; N (cx + rx * 0.55);
   T " "; N (cy - ry); T " "; N cx; T " "; N (cy - ry);
   T " C "; N (cx - rx * 0.55); T " "; N (cy - ry); T " "; N (cx - rx);
   T " "; N (cy - ry * 0.55); T " "; N (cx - rx); T " "; N cy;
   T " C "; N (cx - rx); T " "; N (cy + ry * 0.55); T " "; N (cx - rx * 0.55);
   T " "; N (cy + ry); T " "; N cx; T " "; N (cy + ry);
   T " C "; N (cx + rx * 0.55); T " "; N (cy + ry); T " "; N (cx + rx);
   T " "; N (cy + ry * 0.55); T " "; N (cx + rx); T " "; N cy].

Definition generateGenericPointerPath (e : element) : jsstr :=
  let cx := orQ (el_x e) 0 + orQ (el_width e) 50 / 2 in
  let cy := orQ (el_y e) 0 + orQ (el_height e) 50 / 2 in
  [T "M "; N cx; T " "; N cy].

(** [parts.join(sep)] on template chunks. *)
Fixpoint join_with (sep : jsstr) (parts : list jsstr) : jsstr :=
  match parts with
  | [] => []
  | [p] => p
  | p :: rest => p ++ sep ++ join_with sep rest
  end.

Definition generateFreedrawPointerPath (e : element) : jsstr :=
  match el_points e with
  | None | Some [] => generateGenericPointerPath e
  | Some pts =>
      T "M " :: join_with [T " L "] (map (fun p : Q * Q => [N (fst p); T " "; N (snd p)]) pts)
  end.

Definition generatePointerPath (e : element) (pd : option pathData) : jsstr :=
  let t := el_type e in
  if (String.eqb t "line" || String.eqb t "arrow")%bool then generateLinePointerPath e
  else if String.eqb t "rectangle" then generateRectPointerPath e
  else if String.eqb t "ellipse" then generateEllipsePointerPath e
  else if String.eqb t "freedraw" then generateFreedrawPointerPath e
  else generateGenericPointerPath e.

(** *** Descriptors

    One object per allocated element.  The variant fields of the source
    objects are the arguments of [animationKind]; the constant tags
    ([type], [method], [progressive]) are functions of the kind. *)

Record pointerAnimation := {
  ptr_startMs : Q;
  ptr_durationMs : Q;
  ptr_path : jsstr;
  ptr_element : string
}.

Record fillAnimation := {
  fill_element : element;
  fill_startMs : Q;
  fill_durationMs : Q;
  fill_fillColor : string
}.

Record textPath := {
  tp_id : string;
  tp_pathData : jsstr;
  tp_element : string
}.

Record freedrawSegment := {
  fs_pointIndex : nat;
  fs_progress : Q;
  fs_point : Q * Q
}.

Inductive animationKind :=
| PathAnimation (segments : nat) (pointer : pointerAnimation)
| PolygonAnimation (strokeDuration : Q) (fill : option fillAnimation)
| TextAnimation (characters : nat) (tpath : textPath) (textWidth : Q)
                (pointer : pointerAnimation)
| FreedrawAnimation (points : nat) (segments : list freedrawSegment)
                    (pointer : pointerAnimation)
| ImageAnimation
| GenericAnimation.

Record animation := {
  a_kind : animationKind;
  a_element : element;
  startMs : Q;
  durationMs : Q;
  a_groupIds : list string;
  a_groupAnimation : bool
}.

Definition a_type (a : animation) : string :=
  match a_kind a with
  | PathAnimation _ _ => "path-animation"
  | PolygonAnimation _ _ => "polygon-animation"
  | TextAnimation _ _ _ _ => "text-animation"
  | FreedrawAnimation _ _ _ => "freedraw-animation"
  | ImageAnimation => "image-animation"
  | GenericAnimation => "generic-animation"
  end.

Definition a_pointer (a : animation) : option pointerAnimation :=
  match a_kind a with
  | PathAnimation _ p | TextAnimation _ _ _ p | FreedrawAnimation _ _ p => Some p
  | _ => None
  end.

Definition a_fill (a : animation) : option fillAnimation :=
  match a_kind a with
  | PolygonAnimation _ f => f
  | _ => None
  end.

Definition a_strokeDuration (a : animation) : option Q :=
  match a_kind a with
  | PolygonAnimation s _ => Some s
  | _ => None
  end.

Definition mkAnimation (k : animationKind) (e : element) (currentMs durationMs : Q)
  : animation :=
  {| a_kind := k; a_element := e; startMs := currentMs; durationMs := durationMs;
     a_groupIds := []; a_groupAnimation := false |}.

Definition animatePointer (e : element) (pd : option pathData)
    (currentMs durationMs : Q) : pointerAnimation :=
  {| ptr_startMs := currentMs;
     ptr_durationMs := durationMs;
     ptr_path := generatePointerPath e pd;
     ptr_element := el_id e |}.

Definition animatePath (e : element) (currentMs durationMs : Q) : animation :=
  let pd := generatePathData e in
  let segments := segmentPath pd in
  let pointerAnimation := animatePointer e (Some pd) currentMs durationMs in
  mkAnimation (PathAnimation (length segments) pointerAnimation) e currentMs durationMs.

Definition animateFillPath (e : element) (currentMs durationMs : Q)
  : option fillAnimation :=
  match el_backgroundColor e with
  | Some c =>
      if (String.eqb c EmptyString || String.eqb c "transparent")%bool then None
      else Some {| fill_element := e; fill_startMs := currentMs;
                   fill_durationMs := durationMs; fill_fillColor := c |}
  | None => None
  end.

Definition animatePolygon (e : element) (currentMs durationMs : Q) : animation :=
  let strokeDuration := durationMs * 0.75 in
  let fillDuration := durationMs * 0.25 in
  let fillStartMs := currentMs + strokeDuration in
  let fillAnimation := animateFillPath e fillStartMs fillDuration in
  mkAnimation (PolygonAnimation strokeDuration fillAnimation) e currentMs durationMs.

Definition text_length (e : element) : nat :=
  match el_text e with
  | Some s => String.length s
  | None => 0
  end.

Definition estimateTextWidth (e : element) : Q :=
  let fontSize := orQ (el_fontSize e) 20 in
  inject_Z (Z.of_nat (text_length e)) * fontSize * 0.6.

Definition createTextPath (e : element) (width : Q) : textPath :=
  let x := orQ (el_x e) 0 in
  let y := orQ (el_y e) 0 in
  {| tp_id := "textPath-" +:+ el_id e;
     tp_pathData := [T "m"; N x; T " "; N y; T " h"; N width];
     tp_element := el_id e |}.

Definition animateText (e : element) (currentMs durationMs : Q) : animation :=
  let textLength := text_length e in
  let textWidth := estimateTextWidth e in
  let tpath := createTextPath e textWidth in
  let pointerAnimation := animatePointer e None currentMs durationMs in
  mkAnimation (TextAnimation textLength tpath textWidth pointerAnimation)
              e currentMs durationMs.

Definition createFreedrawInterpolation (e : element) (pointCount : nat)
  : list freedrawSegment :=
  match el_points e with
  | None => []
  | Some pts =>
      imap (fun i p => {| fs_pointIndex := i;
                          fs_progress := (inject_Z (Z.of_nat i) + 1)
                                         / inject_Z (Z.of_nat pointCount);
                          fs_point := p |}) pts
  end.

Definition animateFreedraw (e : element) (currentMs durationMs : Q) : animation :=
  let pointCount := match el_points e with Some pts => length pts | None => 0%nat end in
  let interpolatedSegments := createFreedrawInterpolation e pointCount in
  let pointerAnimation := animatePointer e None currentMs durationMs in
  mkAnimation (FreedrawAnimation pointCount interpolatedSegments pointerAnimation)
              e currentMs durationMs.

Definition animateImage (e : element) (currentMs durationMs : Q) : animation :=
  mkAnimation ImageAnimation e currentMs durationMs.

Definition animateGeneric (e : element) (currentMs durationMs : Q) : animation :=
  mkAnimation GenericAnimation e currentMs durationMs.

(** [extractNumberFromElement(element, 'animateDuration') || durationMs] *)
Definition orDuration (e : element) (durationMs : Q) : Q :=
  let n := extractNumberFromElement e "animateDuration" in
  if Z.eqb n 0 then durationMs else inject_Z n.

(** [animation.groupIds = groupIds; animation.groupAnimation = true] *)
Definition setGroupInfo (a : animation) (groupIds : list string) : animation :=
  {| a_kind := a_kind a; a_element := a_element a;
     startMs := startMs a; durationMs := durationMs a;
     a_groupIds := groupIds; a_groupAnimation := true |}.

Definition createElementAnimation (e : element) (currentMs durationMs : Q)
  : animation :=
  let animationType := getElementAnimationType e in
  let customDuration := orDuration e durationMs in
  let groupIds := el_groupIds e in
  let animation :=
    match animationType with
    | TyPath => animatePath e currentMs customDuration
    | TyPolygon => animatePolygon e currentMs customDuration
    | TyText => animateText e currentMs customDuration
    | TyFreedraw => animateFreedraw e currentMs customDuration
    | TyImage => animateImage e currentMs customDuration
    | TyPathWithFill | TyGeneric => animateGeneric e currentMs customDuration
    end in
  match groupIds with
  | [] => animation
  | _ :: _ => setGroupInfo animation groupIds
  end.

(** ** GroupCollector *)

Record group := {
  g_elements : list element;
  g_processed : bool
}.

Definition addToGroup (groups : gmap string group) (e : element)
  : gmap string group :=
  match el_groupIds e with
  | groupId :: _ =>
      let g := match groups !! groupId with
               | Some g => g
               | None => {| g_elements := []; g_processed := false |}
               end in
      <[groupId := {| g_elements := g_elements g ++ [e];
                      g_processed := g_processed g |}]> groups
  | [] => groups
  end.

Definition createAnimationGroups (elements : list element) : gmap string group :=
  fold_left addToGroup elements ∅.

(** ** TimelineAllocator *)

Record allocState := {
  currentMs : Q;
  animatedFrames : list animation;
  groups : gmap string group
}.

(** The inner [group.elements.forEach]: one descriptor per member, the
    cursor moved by [groupDuration] after each. *)
Definition scheduleMember (groupDuration : Q) (acc : Q * list animation)
    (groupElement : element) : Q * list animation :=
  (fst acc + groupDuration,
   snd acc ++ [createElementAnimation groupElement (fst acc) groupDuration]).

Definition scheduleGroup (groupDuration : Q) (members : list element)
    (acc : Q * list animation) : Q * list animation :=
  fold_left (scheduleMember groupDuration) members acc.

Definition groupDur : Q := 5000.
Definition individualDur : Q := 500.

Definition groupShare (g : group) : Q :=
  groupDur / (inject_Z (Z.of_nat (length (g_elements g))) + 1).

(** The body of [sortedElements.forEach]. *)
Definition allocElement (st : allocState) (e : element) : allocState :=
  let duration := orDuration e individualDur in
  match el_groupIds e with
  | groupId :: _ =>
      match groups st !! groupId with
      | Some g =>
          if g_processed g then st
          else
            let groupDuration := groupShare g in
            let r := scheduleGroup groupDuration (g_elements g)
                                   (currentMs st, animatedFrames st) in
            {| currentMs := fst r;
               animatedFrames := snd r;
               groups := <[groupId := {| g_elements := g_elements g;
                                         g_processed := true |}]> (groups st) |}
      | None => st
      end
  | [] =>
      {| currentMs := currentMs st + duration;
         animatedFrames :=
           animatedFrames st ++ [createElementAnimation e (currentMs st) duration];
         groups := groups st |}
  end.

Definition initialState (sortedElements : list element) : allocState :=
  {| currentMs := 1000;
     animatedFrames := [];
     groups := createAnimationGroups sortedElements |}.

Definition allocate (sortedElements : list element) : allocState :=
  fold_left allocElement sortedElements (initialState sortedElements).

(** ** The SVG payload

    Each [create...Svg] template is kept as a node holding the values it
    interpolates, in the order of the source. *)

Record env := {
  random_label : nat -> string;   (* [Math.random().toString(36).substr(2, 5)] *)
  date_now : nat -> Z             (* [Date.now()] *)
}.

Record config := {
  cfg_width : Q;
  cfg_height : Q;
  cfg_frameRate : Q;
  cfg_outputDir : string
}.

Inductive svgElement :=
| ProgressivePathSvg (etype : string) (pathData : jsstr) (startSec durSec : Q)
| ProgressivePolygonSvg (etype : string) (fillElement : option (jsstr * Q * Q))
                        (polygonPath : jsstr) (dash : Q) (startSec strokeDur : Q)
| ProgressiveTextSvg (text : string) (pathId : jsstr) (textPathData : jsstr)
                     (startSec durSec : Q)
| ProgressiveFreedrawSvg (pathData : jsstr) (startSec durSec : Q)
| GenericAnimationSvg (etype : string) (cx cy : Q) (startSec durSec : Q).

Definition generateSvgPath (e : element) (x y : Q) : jsstr :=
  let width := orQ (el_width e) 100 in
  let height := orQ (el_height e) 100 in
  let t := el_type e in
  if String.eqb t "line" then
    [T "M"; N x; T ","; N y; T " L"; N (x + width); T ","; N (y + height)]
  else if String.eqb t "arrow" then
    [T "M"; N x; T ","; N y; T " L"; N (x + width); T ","; N (y + height);
     T " M"; N (x + width - 20); T ","; N (y + height - 10);
     T " L"; N (x + width); T ","; N (y + height);
     T " L"; N (x + width - 10); T ","; N (y + height - 20)]
  else if String.eqb t "ellipse" then
    let rx := width / 2 in
    let ry := height / 2 in
    let cx := x + rx in
    let cy := y + ry in
    [T "M"; N (cx + rx); T ","; N cy;
     T " A"; N rx; T ","; N ry; T " 0 1,1 "; N (cx - rx); T ","; N cy;
     T " A"; N rx; T ","; N ry; T " 0 1,1 "; N (cx + rx); T ","; N cy]
  else
    [T "M"; N x; T ","; N y; T " L"; N (x + width); T ","; N (y + height)].

Definition createProgressivePathSvg (e : element) (frameData : animation)
    (x y : Q) : svgElement :=
  let pathData := generateSvgPath e x y in
  let startSec := startMs frameData / 1000 in
  let durSec := durationMs frameData / 1000 in
  ProgressivePathSvg (el_type e) pathData startSec durSec.

Definition createProgressivePolygonSvg (e : element) (frameData : animation)
    (x y : Q) : svgElement :=
  let width := orQ (el_width e) 150 in
  let height := orQ (el_height e) 100 in
  let startSec := startMs frameData / 1000 in
  let strokeDur :=
    orQ (a_strokeDuration frameData) (durationMs frameData * 0.75) / 1000 in
  let fillDur := match a_fill frameData with
                 | Some _ => (durationMs frameData * 0.25) / 1000
                 | None => 0
                 end in
  let fillStart := startSec + strokeDur in
  let polygonPath :=
    if String.eqb (el_type e) "rectangle" then
      [T "M"; N x; T ","; N y; T " L"; N (x + width); T ","; N y;
       T " L"; N (x + width); T ","; N (y + height);
       T " L"; N x; T ","; N (y + height); T " Z"]
    else
      let cx := x + width / 2 in
      let cy := y + height / 2 in
      [T "M"; N cx; T ","; N y; T " L"; N (x + width); T ","; N cy;
       T " L"; N cx; T ","; N (y + height); T " L"; N x; T ","; N cy; T " Z"] in
  let fillElement := match a_fill frameData with
                     | Some _ => Some (polygonPath, fillStart, fillDur)
                     | None => None
                     end in
  ProgressivePolygonSvg (el_type e) fillElement polygonPath
                        ((width + height) * 2) startSec strokeDur.

(** The only template that consults the oracle: a placeholder label when
    the text is absent or empty, the clock when the id is empty.  The
    second component is the advanced call counter. *)
Definition createProgressiveTextSvg (w : env) (k : nat) (e : element)
    (frameData : animation) (frameTextWidth : option Q) (x y : Q)
  : svgElement * nat :=
  let '(text, k1) :=
    if truthy_string (el_text e) then (default EmptyString (el_text e), k)
    else ("Text " +:+ random_label w k, S k) in
  let startSec := startMs frameData / 1000 in
  let durSec := durationMs frameData / 1000 in
  let textWidth := orQ frameTextWidth (inject_Z (Z.of_nat (String.length text)) * 12) in
  let '(pathId, k2) :=
    if String.eqb (el_id e) EmptyString
    then ([T "textPath-"; N (inject_Z (date_now w k1))], S k1)
    else ([T "textPath-"; T (el_id e)], k1) in
  let textPathData := [T "M"; N x; T ","; N y; T " L"; N (x + textWidth); T ","; N y] in
  (ProgressiveTextSvg text pathId textPathData startSec durSec, k2).

Definition defaultFreedrawPoints : list (Q * Q) :=
  [(0, 0); (50, 50); (100, 0); (150, 75)].

Definition createProgressiveFreedrawSvg (e : element) (frameData : animation)
    (x y : Q) : svgElement :=
  let startSec := startMs frameData / 1000 in
  let durSec := durationMs frameData / 1000 in
  let points := default defaultFreedrawPoints (el_points e) in
  let pathData :=
    T "M " :: join_with [T " L "]
                (map (fun p : Q * Q => [N (x + fst p); T ","; N (y + snd p)]) points) in
  ProgressiveFreedrawSvg pathData startSec durSec.

Definition createGenericAnimationSvg (e : element) (frameData : animation)
    (x y : Q) : svgElement :=
  let startSec := startMs frameData / 1000 in
  let durSec := durationMs frameData / 1000 in
  GenericAnimationSvg (el_type e) (x + 50) (y + 50) startSec durSec.

Definition createSvgElement (w : env) (k : nat) (e : element)
    (frameData : animation) (index : nat) : svgElement * nat :=
  let x := orQ (el_x e) (100 + inject_Z (Z.of_nat index) * 200) in
  let y := orQ (el_y e) (200 + inject_Z (Z.of_nat index) * 100) in
  match a_kind frameData with
  | PathAnimation _ _ => (createProgressivePathSvg e frameData x y, k)
  | PolygonAnimation _ _ => (createProgressivePolygonSvg e frameData x y, k)
  | TextAnimation _ _ tw _ => createProgressiveTextSvg w k e frameData (Some tw) x y
  | FreedrawAnimation _ _ _ => (createProgressiveFreedrawSvg e frameData x y, k)
  | ImageAnimation | GenericAnimation => (createGenericAnimationSvg e frameData x y, k)
  end.

Fixpoint createSvgElements (w : env) (k : nat) (index : nat)
    (animatedFrames : list animation) : list svgElement :=
  match animatedFrames with
  | [] => []
  | frameData :: rest =>
      let r := createSvgElement w k (a_element frameData) frameData index in
      fst r :: createSvgElements w (snd r) (S index) rest
  end.

Record svgContent := {
  svg_width : Q;
  svg_height : Q;
  svg_titleX : Q;
  svg_elements : list svgElement
}.

Definition generateAnimatedSvgContent (cfg : config) (w : env)
    (animatedFrames : list animation) : svgContent :=
  {| svg_width := cfg_width cfg;
     svg_height := cfg_height cfg;
     svg_titleX := cfg_width cfg / 2;
     svg_elements := createSvgElements w 0 0 animatedFrames |}.

Record svgData := {
  sd_path : string * string;      (* the arguments of [join] *)
  sd_content : svgContent;
  sd_width : Q;
  sd_height : Q;
  sd_elements : list element;
  sd_animations : list animation
}.

Definition createAnimatedSvg (cfg : config) (w : env) (elements : list element)
    (animatedFrames : list animation) : svgData :=
  {| sd_path := (cfg_outputDir cfg, "../animated.svg");
     sd_content := generateAnimatedSvgContent cfg w animatedFrames;
     sd_width := cfg_width cfg;
     sd_height := cfg_height cfg;
     sd_elements := elements;
     sd_animations := animatedFrames |}.

(** The returned object without its constant fields ([type], [progressive],
    [features], [message]) and without [svgPath], a copy of [svgData.path]. *)
Record animationResult := {
  r_svgData : svgData;
  r_frames : list animation;
  r_frameRate : Q;
  r_duration : Q;
  r_outputDir : string;
  r_sortedElements : list element
}.

Definition generateWithExcalidrawAnimate (cfg : config) (w : env)
    (elements : list element) : animationResult :=
  let sortedElements := sortElementsByDaiShiOrder elements in
  let st := allocate sortedElements in
  let totalDuration := currentMs st + 1000 in
  let svg := createAnimatedSvg cfg w elements (animatedFrames st) in
  {| r_svgData := svg;
     r_frames := animatedFrames st;
     r_frameRate := cfg_frameRate cfg;
     r_duration := totalDuration;
     r_outputDir := cfg_outputDir cfg;
     r_sortedElements := sortedElements |}.

(** ** Timestamps of the frame-by-frame path *)

Record timestamp := {
  ts_id : string;
  ts_created : option Q;
  ts_updated : option Q
}.

Definition calculateDuration (timestamps : list timestamp) : Q :=
  match timestamps with
  | [] => 3000
  | t :: rest =>
      let firstTime :=
        fold_left Qmin (map (fun t => orQ (ts_created t) 0) rest)
                  (orQ (ts_created t) 0) in
      let lastTime :=
        fold_left Qmax (map (fun t => orQ (ts_updated t) (orQ (ts_created t) 0)) rest)
                  (orQ (ts_updated t) (orQ (ts_created t) 0)) in
      Qmax (lastTime - firstTime) 1000
  end.

Definition createDefaultTimestamps (elements : list element) : list timestamp :=
  imap (fun index e =>
          {| ts_id := el_id e;
             ts_created := Some (inject_Z (Z.of_nat index) * 500);
             ts_updated := Some ((inject_Z (Z.of_nat index) + 1) * 500) |})
       elements.

(** ** NarrationSynchronizer *)

Record audioSegment := {
  au_id : string;
  au_path : string;
  au_text : string;
  au_voice : string;
  au_duration : Q
}.

Record timelineSegment := {
  seg_id : string;
  seg_audioPath : string;
  seg_text : string;
  seg_voice : string;
  seg_startTime : Q;
  seg_endTime : Q;
  seg_duration : Q;
  seg_elements : list element;     (* [animationSync.elements] *)
  seg_startFrame : Z;
  seg_endFrame : Z
}.

Record timeline := {
  tl_segments : list timelineSegment;
  tl_totalDuration : Q
}.

(** The loop of [createAudioTimeline]; [script] lists the [elements] of the
    script segments.  [None] is the TypeError raised when the script has
    fewer segments than there are audio segments. *)
Fixpoint audioTimelineLoop (audioSegments : list audioSegment)
    (script : list (list element)) (currentTime : Q)
    (acc : list timelineSegment) : option timeline :=
  match audioSegments with
  | [] => Some {| tl_segments := acc; tl_totalDuration := currentTime |}
  | audio :: audioSegments' =>
      match script with
      | [] => None
      | scriptElements :: script' =>
          let seg :=
            {| seg_id := au_id audio;
               seg_audioPath := au_path audio;
               seg_text := au_text audio;
               seg_voice := au_voice audio;
               seg_startTime := currentTime;
               seg_endTime := currentTime + au_duration audio;
               seg_duration := au_duration audio;
               seg_elements := scriptElements;
               seg_startFrame := Qfloor (currentTime * 30 / 1000);
               seg_endFrame := Qfloor ((currentTime + au_duration audio) * 30 / 1000) |} in
          audioTimelineLoop audioSegments' script'
                            (currentTime + au_duration audio + 500) (acc ++ [seg])
      end
  end.

Definition createAudioTimeline (audioSegments : list audioSegment)
    (script : list (list element)) : option timeline :=
  audioTimelineLoop audioSegments script 0 [].

Definition segmentTimestamps (segment : timelineSegment) : list timestamp :=
  let segmentElements := seg_elements segment in
  let startTime := seg_startTime segment in
  let duration := seg_duration segment in
  let share := duration / inject_Z (Z.of_nat (length segmentElements)) in
  imap (fun index e =>
          let elementStartTime := startTime + share * inject_Z (Z.of_nat index) in
          {| ts_id := el_id e;
             ts_created := Some elementStartTime;
             ts_updated := Some (elementStartTime + share) |})
       segmentElements.

Definition hasTimestamp (timestamps : list timestamp) (e : element) : bool :=
  existsb (fun t => String.eqb (ts_id t) (el_id e)) timestamps.

Definition addRemaining (tl : timeline) (timestamps : list timestamp)
    (e : element) : list timestamp :=
  if hasTimestamp timestamps e then timestamps
  else timestamps ++ [{| ts_id := el_id e;
                         ts_created := Some (tl_totalDuration tl);
                         ts_updated := Some (tl_totalDuration tl + 1000) |}].

Definition createSynchronizedTimestamps (elements : list element) (tl : timeline)
  : list timestamp :=
  let covered := flat_map segmentTimestamps (tl_segments tl) in
  fold_left (addRemaining tl) elements covered.

(** *** Speed factor *)

Inductive jsnum :=
| Fin (q : Q)
| PosInf
| NegInf
| NaN.

(** [a / b] for finite operands, the divisor zero being [+0]. *)
Definition js_div (a b : Q) : jsnum :=
  if Qeq_bool b 0 then
    if Qeq_bool a 0 then NaN
    else if Qle_bool 0 a then PosInf else NegInf
  else Fin (a / b).

(** [Math.min(a, b)] and [Math.max(a, b)] with a finite first argument. *)
Definition Math_min (a : Q) (b : jsnum) : jsnum :=
  match b with
  | Fin q => Fin (Qmin a q)
  | PosInf => Fin a
  | NegInf => NegInf
  | NaN => NaN
  end.

Definition Math_max (a : Q) (b : jsnum) : jsnum :=
  match b with
  | Fin q => Fin (Qmax a q)
  | PosInf => PosInf
  | NegInf => Fin a
  | NaN => NaN
  end.

Definition calculateAnimationSpeed (elementCount : nat) (narrationDuration : Q)
  : jsnum :=
  let baseAnimationTime := inject_Z (Z.of_nat elementCount) * 500 in
  let speed := js_div baseAnimationTime narrationDuration in
  Math_max 0.5 (Math_min 2 speed).

(** The ordering the resolver is meant to realise, in the words of its
    contract: two elements without an order hint (hint absent or zero) go by
    creation time, any other pair by hint, a missing hint counting as 0. *)
Definition orderHint (e : element) : Z := extractNumberFromElement e "animateOrder".

Definition precedes (a b : element) : Prop :=
  if (Z.eqb (orderHint a) 0 && Z.eqb (orderHint b) 0)%bool
  then elementTime a <= elementTime b
  else (orderHint a <= orderHint b)%Z.

(** Two elements the comparator does not separate. *)
Definition tied : element -> element -> bool := cmp_eqv compareElements.

(** The configuration the constructor builds from an empty argument. *)
Definition defaultConfig : config :=
  {| cfg_width := 1920; cfg_height := 1080; cfg_frameRate := 30;
     cfg_outputDir := "./output/frames" |}.

Definition constEnv (label : string) (now : Z) : env :=
  {| random_label := fun _ => label; date_now := fun _ => now |}.

(** An element with the given id, type and group memberships and no other
    field set. *)
Definition bareElement (id type : string) (groupIds : list string) : element :=
  {| el_id := id; el_type := type; el_x := None; el_y := None;
     el_width := None; el_height := None; el_groupIds := groupIds;
     el_backgroundColor := None; el_roundness := false; el_text := None;
     el_fontSize := None; el_points := None; el_created := None;
     el_versionNonce := None |}.

(** The elements [getElementAnimationType] sends to [animatePath] or
    [animateFreedraw]. *)
Definition strokeWithPointer (e : element) : Prop :=
  el_type e = "ellipse" \/ el_type e = "freedraw"
  \/ ((el_type e = "line" \/ el_type e = "arrow")
      /\ el_roundness e = true /\ hasFill e = false).


(** ** Notions used to state the allocator's properties *)

(** [e] has [gid] as its primary group, [groupIds[0]]. *)
Definition inGroup (gid : string) (e : element) : bool :=
  match el_groupIds e with
  | g :: _ => String.eqb g gid
  | [] => false
  end.

(** The descriptors of a group scheduled from cursor [c], one share each. *)
Fixpoint groupBlock (share : Q) (members : list element) (c : Q) : list animation :=
  match members with
  | [] => []
  | m :: rest => createElementAnimation m c share :: groupBlock share rest (c + share)
  end.

Fixpoint advance (share : Q) (members : list element) (c : Q) : Q :=
  match members with
  | [] => c
  | _ :: rest => advance share rest (c + share)
  end.

(** The descriptors one iteration of the allocator loop appends, and those a
    run over [l] appends. *)
Definition newFrames (st : allocState) (e : element) : list animation :=
  match el_groupIds e with
  | groupId :: _ =>
      match groups st !! groupId with
      | Some g => if g_processed g then []
                  else groupBlock (groupShare g) (g_elements g) (currentMs st)
      | None => []
      end
  | [] => [createElementAnimation e (currentMs st) (orDuration e individualDur)]
  end.

Fixpoint runFrames (l : list element) (st : allocState) : list animation :=
  match l with
  | [] => []
  | e :: l' => newFrames st e ++ runFrames l' (allocElement st e)
  end.

(** [frames] tile the interval from [c] to [c']: each descriptor starts
    where the previous one ends. *)
Fixpoint chained (c : Q) (frames : list animation) (c' : Q) : Prop :=
  match frames with
  | [] => c == c'
  | d :: rest => startMs d == c /\ chained (c + durationMs d) rest c'
  end.

Definition durationOverride (e : element) : Z :=
  extractNumberFromElement e "animateDuration".

Definition processedIn (st : allocState) (gid : string) : Prop :=
  exists g, groups st !! gid = Some g /\ g_processed g = true.

(** Every group record lists elements that satisfy [P]. *)
Definition membersSat (P : string -> element -> Prop) (st : allocState) : Prop :=
  forall gid g, groups st !! gid = Some g -> Forall (P gid) (g_elements g).

(** The record [createAnimationGroups] holds for [gid]: the elements with
    primary group [gid], in list order, if there are any. *)
Definition groupOf (l : list element) (gid : string) : option group :=
  match List.filter (inGroup gid) l with
  | [] => None
  | members => Some {| g_elements := members; g_processed := false |}
  end.

(** A rectangle and an ellipse in group g1 followed by an ungrouped text. *)
Definition scenario : list element :=
  [bareElement "A" "rectangle" ["g1"]; bareElement "B" "ellipse" ["g1"];
   bareElement "C" "text" []].

(** The id of [e] carries the hint [key:n]. *)
Definition encodes (key : string) (n : Z) (e : element) : Prop :=
  exists c, regex_match key (el_id e) = Some c /\ Number c = n.

(** A text element for which the text template needs neither a placeholder
    label nor the clock. *)
Definition textReady (e : element) : Prop :=
  el_type e = "text" -> truthy_string (el_text e) = true /\ el_id e <> EmptyString.

(** The segments follow a running cursor that starts at [c], gives every
    segment its audio duration and a pause of 500 ms, and ends at [final]. *)
Fixpoint cursorChain (c : Q) (segs : list timelineSegment) (final : Q) : Prop :=
  match segs with
  | [] => final = c
  | s :: rest =>
      seg_startTime s = c /\ seg_endTime s = c + seg_duration s
      /\ cursorChain (c + seg_duration s + 500) rest final
  end.

Definition audioOf (id : string) (duration : Q) : audioSegment :=
  {| au_id := id; au_path := id +:+ ".wav"; au_text := id; au_voice := "af_heart";
     au_duration := duration |}.

(** ** Notions used to state further properties of the allocator *)

Definition ungrouped (e : element) : bool :=
  match el_groupIds e with
  | [] => true
  | _ :: _ => false
  end.

(** The primary group of [e] has a member among [done]. *)
Definition touched (done : list element) (e : element) : bool :=
  match el_groupIds e with
  | [] => false
  | gid :: _ => existsb (inGroup gid) done
  end.

(** The record of [gid] once the loop has gone through [done]. *)
Definition groupAfter (sorted done : list element) (gid : string) : option group :=
  match List.filter (inGroup gid) sorted with
  | [] => None
  | members => Some {| g_elements := members;
                       g_processed := existsb (inGroup gid) done |}
  end.

(** The time an element adds to the cursor: its own duration when it is
    ungrouped, one share of its group otherwise. *)
Definition slot (elements : list element) (e : element) : Q :=
  match el_groupIds e with
  | [] => orDuration e individualDur
  | gid :: _ =>
      groupDur / (inject_Z (Z.of_nat (length (List.filter (inGroup gid) elements))) + 1)
  end.

Fixpoint sumQ (l : list Q) : Q :=
  match l with
  | [] => 0
  | x :: rest => x + sumQ rest
  end.

(** The elements scheduled once the loop has gone through [done]: the
    ungrouped ones among [done] and every member of a group it touched. *)
Definition scheduledAfter (sorted done : list element) : list element :=
  List.filter ungrouped done ++ List.filter (touched done) sorted.

(** ** Notions used to state properties of the id hints *)

Definition colon : ascii := ":"%char.

Fixpoint colon_free (s : string) : bool :=
  match s with
  | EmptyString => true
  | String c s' => (negb (Ascii.eqb c colon) && colon_free s')%bool
  end.

Fixpoint all_digits (s : string) : bool :=
  match s with
  | EmptyString => true
  | String c s' => (is_digit c && all_digits s')%bool
  end.

Definition first_is_digit (s : string) : bool :=
  match s with
  | EmptyString => false
  | String c _ => is_digit c
  end.

(** The decimal numeral of [n]. *)
Definition decimal (n : nat) : string :=
  DecimalString.NilZero.string_of_uint (Nat.to_uint n).

(** ** Narrative groups (VoiceNarrator.groupElements) *)

(** The comparator of [groupElements]: creation time only. *)
Definition compareByTime (a b : element) : Q := elementTime a - elementTime b.

Record narrativeGroup := {
  ng_id : jsstr;                 (* [`group-${groups.length}`] *)
  ng_elements : list element;
  ng_type : string;
  ng_startTime : Q;
  ng_endTime : option Q          (* set when the group is pushed *)
}.

(** The state of the loop: the groups pushed so far, [currentGroup] and
    [groupStartTime]. *)
Record groupingState := {
  gs_groups : list narrativeGroup;
  gs_current : option narrativeGroup;
  gs_start : Q
}.

Definition shouldStartNewGroup (e : element) (currentGroup : option narrativeGroup)
  : bool :=
  match currentGroup with
  | None => true
  | Some g =>
      if negb (String.eqb (el_type e) (ng_type g)) then true
      else if Nat.leb 3 (length (ng_elements g)) then true
      else if String.eqb (el_type e) "text" then true
      else false
  end.

(** [currentGroup.endTime = groupStartTime + 3000; groups.push(currentGroup)] *)
Definition pushGroup (groups : list narrativeGroup) (g : narrativeGroup)
    (groupStartTime : Q) : list narrativeGroup :=
  groups ++ [{| ng_id := ng_id g; ng_elements := ng_elements g; ng_type := ng_type g;
                ng_startTime := ng_startTime g;
                ng_endTime := Some (groupStartTime + 3000) |}].

Definition groupStep (st : groupingState) (e : element) : groupingState :=
  if (shouldStartNewGroup e (gs_current st)
      || match gs_current st with None => true | Some _ => false end)%bool
  then
    let groups := match gs_current st with
                  | Some g => pushGroup (gs_groups st) g (gs_start st)
                  | None => gs_groups st
                  end in
    let groupStartTime := match gs_current st with
                          | Some _ => gs_start st + 3000
                          | None => gs_start st
                          end in
    {| gs_groups := groups;
       gs_current :=
         Some {| ng_id := [T "group-"; N (inject_Z (Z.of_nat (length groups)))];
                 ng_elements := [e];
                 ng_type := el_type e;
                 ng_startTime := groupStartTime;
                 ng_endTime := None |};
       gs_start := groupStartTime |}
  else
    {| gs_groups := gs_groups st;
       gs_current :=
         match gs_current st with
         | Some g => Some {| ng_id := ng_id g; ng_elements := ng_elements g ++ [e];
                             ng_type := ng_type g; ng_startTime := ng_startTime g;
                             ng_endTime := ng_endTime g |}
         | None => None
         end;
       gs_start := gs_start st |}.

Definition groupElements (elements : list element) : list narrativeGroup :=
  let sortedElements := sort_by compareByTime elements in
  let st := fold_left groupStep sortedElements
              {| gs_groups := []; gs_current := None; gs_start := 0 |} in
  match gs_current st with
  | Some g => pushGroup (gs_groups st) g (gs_start st)
  | None => gs_groups st
  end.

(** The [elements] of the segments [generateScript] builds, one segment for
    each narrative group. *)
Definition scriptElements (elements : list element) : list (list element) :=
  map ng_elements (groupElements elements).

(** What the loop keeps true of a narrative group. *)
Definition wellFormedGroup (g : narrativeGroup) : Prop :=
  ng_elements g <> []
  /\ (length (ng_elements g) <= 3)%nat
  /\ Forall (fun e => el_type e = ng_type g) (ng_elements g)
  /\ (ng_type g = "text" -> length (ng_elements g) = 1%nat).

(** ** Visible elements (getElementsAtTime) *)

Definition visibleAt (timestamps : list timestamp) (currentTime : Q) (e : element)
  : bool :=
  match List.find (fun t => String.eqb (ts_id t) (el_id e)) timestamps with
  | Some t => Qle_bool (orQ (ts_created t) 0) currentTime
  | None => false
  end.

Definition getElementsAtTime (elements : list element) (timestamps : list timestamp)
    (currentTime : Q) : list element :=
  List.filter (visibleAt timestamps currentTime) elements.

(** The [i]-th group pushed by [groupElements]. *)
Definition numberedGroup (i : nat) (g : narrativeGroup) : Prop :=
  ng_id g = [T "group-"; N (inject_Z (Z.of_nat i))]
  /\ ng_startTime g == 3000 * inject_Z (Z.of_nat i).

Definition pushedGroup (i : nat) (g : narrativeGroup) : Prop :=
  numberedGroup i g
  /\ exists endTime, ng_endTime g = Some endTime /\ endTime == ng_startTime g + 3000.

(** The state of the grouping loop after the elements [done]. *)
Definition groupingInv (done : list element) (st : groupingState) : Prop :=
  concat (map ng_elements (gs_groups st))
    ++ match gs_current st with Some g => ng_elements g | None => [] end = done
  /\ Forall wellFormedGroup (gs_groups st)
  /\ (forall (i : nat) g, gs_groups st !! i = Some g -> pushedGroup i g)
  /\ match gs_current st with
     | Some g => wellFormedGroup g /\ numberedGroup (length (gs_groups st)) g
                 /\ gs_start st == ng_startTime g
     | None => gs_groups st = [] /\ gs_start st = 0
     end.

(** ** The frame loop of [generateFrameByFrame] *)

Definition Math_ceil (x : jsnum) : jsnum :=
  match x with
  | Fin q => Fin (inject_Z (Qceiling q))
  | other => other
  end.

(** [totalFrames], for the speed [speed] of the configuration. *)
Definition totalFrames (cfg : config) (speed : Q) (timestamps : list timestamp) : jsnum :=
  let animationDuration := calculateDuration timestamps in
  Math_ceil (js_div ((animationDuration / 1000) * cfg_frameRate cfg) speed).

(** The elements drawn in each frame, in frame order.  [None]: the loop
    [for (frame = 0; frame < totalFrames; frame++)] has no end, [totalFrames]
    being infinite.  Rendering and saving of the frames are left out. *)
Definition frameElements (cfg : config) (speed : Q) (elements : list element)
    (timestamps : list timestamp) : option (list (list element)) :=
  let animationDuration := calculateDuration timestamps in
  match totalFrames cfg speed timestamps with
  | Fin total =>
      Some (map (fun frame : nat =>
                   let timeProgress :=
                     (inject_Z (Z.of_nat frame) / total) * animationDuration * speed in
                   getElementsAtTime elements timestamps timeProgress)
                (seq 0 (Z.to_nat (Qceiling total))))
  | PosInf => None
  | NegInf | NaN => Some []
  end.

(** * Properties *)

(** ** Stable insertion sort under a total preorder *)

Section SortFacts.
Context {A : Type} (cmp : A -> A -> Q).
Hypothesis cmp_skew : forall a b, cmp a b == - cmp b a.
Hypothesis cmp_trans : forall a b c, cmp a b <= 0 -> cmp b c <= 0 -> cmp a c <= 0.

Local Abbreviation le := (cmp_le cmp).
Local Abbreviation eqv := (cmp_eqv cmp).

Lemma sort_insert_perm x l : Permutation (x :: l) (sort_insert cmp x l).
Proof.
  induction l as [|y l IH]; simpl; [reflexivity|].
  destruct (Qle_bool (cmp x y) 0); [reflexivity|].
  rewrite perm_swap. now apply perm_skip.
Qed.

Lemma sort_by_perm l : Permutation l (sort_by cmp l).
Proof.
  induction l as [|x l IH]; simpl; [constructor|].
  rewrite <- sort_insert_perm. now apply perm_skip.
Qed.

Lemma sort_insert_sorted x l :
  StronglySorted le l -> StronglySorted le (sort_insert cmp x l).
Proof.
  induction 1 as [|y l Hs IH Hall]; simpl.
  - repeat constructor.
  - destruct (Qle_bool (cmp x y) 0) eqn:E.
    + apply Qle_bool_iff in E.
      constructor; [now constructor|].
      constructor; [exact E|].
      eapply List.Forall_impl; [|exact Hall].
      intros z Hz. unfold cmp_le in *. eapply cmp_trans; eassumption.
    + assert (Hyx : le y x).
      { unfold cmp_le. rewrite cmp_skew.
        destruct (Qlt_le_dec 0 (cmp x y)) as [Hlt|Hle]; [lra|].
        apply Qle_bool_iff in Hle. congruence. }
      constructor; [exact IH|].
      eapply Permutation_Forall; [apply sort_insert_perm|].
      now constructor.
Qed.

Lemma sort_by_sorted l : StronglySorted le (sort_by cmp l).
Proof.
  induction l as [|x l IH]; simpl; [constructor|].
  now apply sort_insert_sorted.
Qed.

Lemma eqv_le z y : eqv z y = true <-> le z y /\ le y z.
Proof.
  unfold cmp_eqv, cmp_le. rewrite Qeq_bool_iff. pose proof (cmp_skew y z). split.
  - intros E. lra.
  - intros [? ?]. lra.
Qed.

Lemma filter_sort_insert z x l :
  List.filter (eqv z) (sort_insert cmp x l) = List.filter (eqv z) (x :: l).
Proof.
  induction l as [|y l IH]; [reflexivity|].
  cbn [sort_insert]. destruct (Qle_bool (cmp x y) 0) eqn:E; [reflexivity|].
  cbn [List.filter] in *. rewrite IH.
  destruct (eqv z x) eqn:Ex, (eqv z y) eqn:Ey; try reflexivity.
  exfalso. apply eqv_le in Ex, Ey.
  assert (le x y) by (unfold cmp_le in *; eapply cmp_trans; [apply Ex|apply Ey]).
  apply Qle_bool_iff in H. congruence.
Qed.

Lemma filter_sort_by z l :
  List.filter (eqv z) (sort_by cmp l) = List.filter (eqv z) l.
Proof.
  induction l as [|x l IH]; [reflexivity|].
  cbn [sort_by]. rewrite filter_sort_insert. cbn [List.filter]. now rewrite IH.
Qed.

(** A sorted list is determined by the order of the elements inside each
    class of ties: there is one stable sorted arrangement. *)
Lemma stable_sorted_unique l1 l2 :
  StronglySorted le l1 -> StronglySorted le l2 -> Permutation l1 l2 ->
  (forall z, List.filter (eqv z) l1 = List.filter (eqv z) l2) ->
  l1 = l2.
Proof.
  intros H1. revert l2. induction H1 as [|a l1 Hs1 IH Ha]; intros l2 H2 Hp Hf.
  - apply Permutation_nil in Hp. now subst.
  - destruct H2 as [|b l2 Hs2 Hb].
    + apply Permutation_sym, Permutation_nil in Hp. discriminate.
    + assert (Haa : eqv a a = true).
      { apply eqv_le. pose proof (cmp_skew a a). unfold cmp_le. split; lra. }
      assert (Hab : eqv a b = true).
      { apply eqv_le. split.
        - assert (In b (a :: l1)) as [->|Hin]
            by (eapply Permutation_in; [symmetry; exact Hp|now left]).
          + apply eqv_le in Haa. tauto.
          + rewrite List.Forall_forall in Ha. now apply Ha.
        - assert (In a (b :: l2)) as [->|Hin]
            by (eapply Permutation_in; [exact Hp|now left]).
          + apply eqv_le in Haa. tauto.
          + rewrite List.Forall_forall in Hb. now apply Hb. }
      pose proof (Hf a) as Hfa. cbn [List.filter] in Hfa.
      rewrite Haa, Hab in Hfa. injection Hfa as -> _.
      f_equal. apply IH; [exact Hs2|eapply Permutation_cons_inv; exact Hp|].
      intros z. specialize (Hf z). cbn [List.filter] in Hf.
      destruct (eqv z b); [now injection Hf|exact Hf].
Qed.
End SortFacts.

(** ** OrderResolver *)

Lemma extractNumber_no_match e key :
  regex_match key (el_id e) = None -> extractNumberFromElement e key = 0%Z.
Proof. unfold extractNumberFromElement. now intros ->. Qed.

Lemma compareElements_skew a b : compareElements a b == - compareElements b a.
Proof.
  unfold compareElements.
  destruct (Z.eqb (extractNumberFromElement a "animateOrder") 0),
           (Z.eqb (extractNumberFromElement b "animateOrder") 0); cbn; ring.
Qed.

Lemma inject_Z_sub_le x y : inject_Z x - inject_Z y <= 0 <-> (x <= y)%Z.
Proof. rewrite Zle_Qle. split; intros; lra. Qed.

Lemma compareElements_precedes a b : compareElements a b <= 0 <-> precedes a b.
Proof.
  unfold compareElements, precedes, orderHint.
  destruct (Z.eqb _ 0 && Z.eqb _ 0)%bool.
  - split; intros; lra.
  - apply inject_Z_sub_le.
Qed.

Lemma precedes_trans a b c : precedes a b -> precedes b c -> precedes a c.
Proof.
  unfold precedes.
  destruct (Z.eqb_spec (orderHint a) 0) as [Ha|Ha],
           (Z.eqb_spec (orderHint b) 0) as [Hb|Hb],
           (Z.eqb_spec (orderHint c) 0) as [Hc|Hc]; cbn; intros; try lia; lra.
Qed.

Lemma compareElements_trans a b c :
  compareElements a b <= 0 -> compareElements b c <= 0 -> compareElements a c <= 0.
Proof. rewrite !compareElements_precedes. apply precedes_trans. Qed.

Lemma precedes_total a b : precedes a b \/ precedes b a.
Proof.
  rewrite <- !compareElements_precedes. pose proof (compareElements_skew a b).
  destruct (Qlt_le_dec 0 (compareElements a b)); [right|left]; lra.
Qed.

Lemma StronglySorted_iff {A} (R S : A -> A -> Prop) l :
  (forall a b, R a b <-> S a b) -> StronglySorted R l -> StronglySorted S l.
Proof.
  intros HRS. induction 1 as [|a l Hs IH Ha]; constructor; [assumption|].
  eapply List.Forall_impl; [|exact Ha]. intros b. apply HRS.
Qed.


(** ** DescriptorFactory *)

Lemma animateFillPath_hasFill e s d :
  animateFillPath e s d
  = if hasFill e
    then Some {| fill_element := e; fill_startMs := s; fill_durationMs := d;
                 fill_fillColor := default EmptyString (el_backgroundColor e) |}
    else None.
Proof.
  unfold animateFillPath, hasFill.
  destruct (el_backgroundColor e) as [c|]; [|reflexivity].
  now destruct (String.eqb c EmptyString), (String.eqb c "transparent").
Qed.

Lemma createElementAnimation_times e s d :
  startMs (createElementAnimation e s d) = s
  /\ durationMs (createElementAnimation e s d) = orDuration e d.
Proof.
  unfold createElementAnimation.
  destruct (getElementAnimationType e), (el_groupIds e); now cbn.
Qed.

Lemma createElementAnimation_kind e s d :
  a_kind (createElementAnimation e s d)
  = a_kind (match getElementAnimationType e with
            | TyPath => animatePath e s (orDuration e d)
            | TyPolygon => animatePolygon e s (orDuration e d)
            | TyText => animateText e s (orDuration e d)
            | TyFreedraw => animateFreedraw e s (orDuration e d)
            | TyImage => animateImage e s (orDuration e d)
            | TyPathWithFill | TyGeneric => animateGeneric e s (orDuration e d)
            end).
Proof. unfold createElementAnimation. now destruct (el_groupIds e). Qed.

Lemma polygon_type e :
  el_type e = "rectangle" \/ el_type e = "diamond" ->
  getElementAnimationType e = TyPolygon.
Proof. unfold getElementAnimationType. now intros [-> | ->]. Qed.



Lemma strokeWithPointer_type e :
  strokeWithPointer e ->
  getElementAnimationType e = TyPath \/ getElementAnimationType e = TyFreedraw.
Proof.
  unfold getElementAnimationType.
  intros [-> | [-> | ([-> | ->] & -> & ->)]]; cbn; auto.
Qed.

Lemma straight_line_type e :
  el_type e = "line" \/ el_type e = "arrow" -> el_roundness e = false ->
  getElementAnimationType e = TyPolygon.
Proof.
  unfold getElementAnimationType. intros [-> | ->] ->; cbn; now destruct (hasFill e).
Qed.




(** ** The empty drawing *)

(** C2, as the code has it.  The allocator gives the empty element list no
    descriptor and the two margins as total duration, 2000 ms; the 3000 ms
    default is what [calculateDuration] returns for an empty timestamp list
    on the frame-by-frame path. *)
Theorem empty_drawing_duration (cfg : config) (w : env) :
  r_frames (generateWithExcalidrawAnimate cfg w []) = []
  /\ r_duration (generateWithExcalidrawAnimate cfg w []) == 2000
  /\ calculateDuration [] = 3000.
Proof. repeat split. Qed.

Lemma empty_drawing_not_3000 :
  r_frames (generateWithExcalidrawAnimate defaultConfig (constEnv "abcde" 0) []) = []
  /\ ~ r_duration (generateWithExcalidrawAnimate defaultConfig (constEnv "abcde" 0) [])
       == 3000.
Proof. split; [reflexivity|]. intros H. vm_compute in H. discriminate. Qed.

(** ** Speed factor *)

Lemma calculateAnimationSpeed_clamped (elementCount : nat) (narrationDuration : Q) :
  0 <= narrationDuration ->
  (elementCount <> 0%nat \/ ~ narrationDuration == 0) ->
  exists q, calculateAnimationSpeed elementCount narrationDuration = Fin q
            /\ 0.5 <= q <= 2.
Proof.
  intros Hd Hnz. unfold calculateAnimationSpeed, js_div.
  destruct (Qeq_bool narrationDuration 0) eqn:E.
  - apply Qeq_bool_iff in E. destruct Hnz as [Hn|Hn]; [|contradiction].
    assert (Hpos : 0 < inject_Z (Z.of_nat elementCount) * 500).
    { assert (inject_Z 1 <= inject_Z (Z.of_nat elementCount)) as H1
        by (rewrite <- Zle_Qle; lia).
      change (inject_Z 1) with 1 in H1. lra. }
    destruct (Qeq_bool _ 0) eqn:E0.
    + apply Qeq_bool_iff in E0. lra.
    + destruct (Qle_bool 0 _) eqn:E1.
      * cbn. eexists. split; [reflexivity|].
        split; [apply Q.le_max_l|]. apply Q.max_lub; lra.
      * apply Qlt_le_weak, Qle_bool_iff in Hpos. congruence.
  - cbn. eexists. split; [reflexivity|]. split; [apply Q.le_max_l|].
    apply Q.max_lub; [lra|apply Q.le_min_l].
Qed.

(** C7 at an empty drawing with an empty narration: the quotient 0/0 is NaN
    and both [Math.min] and [Math.max] return NaN, which is no number of
    the interval from 0.5 to 2. *)
Theorem calculateAnimationSpeed_empty_is_NaN :
  calculateAnimationSpeed 0 0 = NaN
  /\ createAudioTimeline [] [] = Some {| tl_segments := []; tl_totalDuration := 0 |}.
Proof. split; reflexivity. Qed.

(** ** TimelineAllocator *)

Lemma inGroup_primary gid e :
  inGroup gid e = true <-> exists rest, el_groupIds e = gid :: rest.
Proof.
  unfold inGroup. destruct (el_groupIds e) as [|g rest].
  - split; [discriminate|]. now intros [? ?].
  - rewrite String.eqb_eq. split.
    + intros ->. now exists rest.
    + now intros [? [= ->]].
Qed.

Lemma inGroup_functional g1 g2 e : inGroup g1 e = true -> inGroup g2 e = true -> g1 = g2.
Proof.
  rewrite !inGroup_primary. intros [r1 H1] [r2 H2]. congruence.
Qed.

Lemma inject_Z_succ n : inject_Z (Z.of_nat (S n)) == inject_Z (Z.of_nat n) + 1.
Proof. rewrite Nat2Z.inj_succ, <- Z.add_1_r, inject_Z_plus. reflexivity. Qed.

Lemma inject_Z_nat_nonneg n : 0 <= inject_Z (Z.of_nat n).
Proof. change 0 with (inject_Z 0). rewrite <- Zle_Qle. lia. Qed.

Lemma groupShare_pos g : 0 < groupShare g.
Proof.
  unfold groupShare, groupDur. pose proof (inject_Z_nat_nonneg (length (g_elements g))).
  apply Qlt_shift_div_l; lra.
Qed.

Lemma scheduleGroup_eq share members c frames :
  scheduleGroup share members (c, frames)
  = (advance share members c, frames ++ groupBlock share members c).
Proof.
  unfold scheduleGroup. revert c frames.
  induction members as [|m members IH]; intros c frames.
  - cbn. now rewrite app_nil_r.
  - change (fold_left (scheduleMember share) (m :: members) (c, frames))
      with (fold_left (scheduleMember share) members
              (c + share, frames ++ [createElementAnimation m c share])).
    rewrite IH. cbn [advance groupBlock]. now rewrite <- app_assoc.
Qed.

Lemma advance_eq share members c :
  advance share members c == c + inject_Z (Z.of_nat (length members)) * share.
Proof.
  revert c. induction members as [|m members IH]; intros c.
  - cbn. ring.
  - cbn [advance length]. rewrite IH, inject_Z_succ. ring.
Qed.

Lemma allocElement_frames st e :
  animatedFrames (allocElement st e) = animatedFrames st ++ newFrames st e.
Proof.
  unfold allocElement, newFrames.
  destruct (el_groupIds e) as [|gid rest]; [reflexivity|].
  destruct (groups st !! gid) as [g|]; [|now rewrite app_nil_r].
  destruct (g_processed g); [now rewrite app_nil_r|].
  now rewrite scheduleGroup_eq.
Qed.

Lemma run_frames l st :
  animatedFrames (fold_left allocElement l st) = animatedFrames st ++ runFrames l st.
Proof.
  revert st. induction l as [|e l IH]; intros st; cbn.
  - now rewrite app_nil_r.
  - now rewrite IH, allocElement_frames, <- app_assoc.
Qed.

(** One iteration on a member of a group that is not processed yet. *)
Lemma allocElement_fresh_group st e gid g :
  inGroup gid e = true -> groups st !! gid = Some g -> g_processed g = false ->
  allocElement st e
  = {| currentMs := advance (groupShare g) (g_elements g) (currentMs st);
       animatedFrames :=
         animatedFrames st ++ groupBlock (groupShare g) (g_elements g) (currentMs st);
       groups := <[gid := {| g_elements := g_elements g; g_processed := true |}]>
                   (groups st) |}.
Proof.
  intros [rest Hg]%inGroup_primary Hl Hp. unfold allocElement.
  now rewrite Hg, Hl, Hp, scheduleGroup_eq.
Qed.

(** One iteration on a member of a group that is processed already. *)
Lemma allocElement_processed_group st e gid g :
  inGroup gid e = true -> groups st !! gid = Some g -> g_processed g = true ->
  allocElement st e = st.
Proof.
  intros [rest Hg]%inGroup_primary Hl Hp. unfold allocElement.
  now rewrite Hg, Hl, Hp.
Qed.

(** What an iteration does to the entry of a group: nothing, or it sets the
    flag of the primary group of the element. *)
Lemma allocElement_groups st e gid :
  groups (allocElement st e) !! gid = groups st !! gid
  \/ exists g, inGroup gid e = true /\ groups st !! gid = Some g
               /\ g_processed g = false
               /\ groups (allocElement st e) !! gid
                  = Some {| g_elements := g_elements g; g_processed := true |}.
Proof.
  unfold allocElement.
  destruct (el_groupIds e) as [|g0 rest] eqn:Hg; [now left|].
  destruct (groups st !! g0) as [g|] eqn:Hl; [|now left].
  destruct (g_processed g) eqn:Hp; [now left|]. cbn.
  destruct (decide (g0 = gid)) as [->|Hne].
  - right. exists g. rewrite lookup_insert_eq. repeat split; try assumption.
    apply inGroup_primary. now exists rest.
  - left. now rewrite lookup_insert_ne.
Qed.

Lemma allocElement_groups_other st e gid :
  inGroup gid e = false -> groups (allocElement st e) !! gid = groups st !! gid.
Proof.
  intros H. destruct (allocElement_groups st e gid) as [E|(g & Hin & _)];
    [exact E|congruence].
Qed.

Lemma run_groups_other l st gid :
  Forall (fun e => inGroup gid e = false) l ->
  groups (fold_left allocElement l st) !! gid = groups st !! gid.
Proof.
  intros H. revert st. induction H as [|e l He Hl IH]; intros st; cbn; [reflexivity|].
  now rewrite IH, allocElement_groups_other.
Qed.

Lemma allocElement_keeps_processed st e gid :
  processedIn st gid -> processedIn (allocElement st e) gid.
Proof.
  intros (g & Hl & Hp).
  destruct (allocElement_groups st e gid) as [E|(g' & _ & Hl' & Hp' & E)].
  - exists g. now rewrite E.
  - congruence.
Qed.


(** *** GroupCollector *)

Lemma addToGroup_spec m l e :
  (forall gid, m !! gid = groupOf l gid) ->
  forall gid, addToGroup m e !! gid = groupOf (l ++ [e]) gid.
Proof.
  intros H gid. unfold groupOf. rewrite List.filter_app. cbn [List.filter].
  unfold addToGroup. destruct (el_groupIds e) as [|g0 rest] eqn:Hg.
  - assert (inGroup gid e = false) as -> by (unfold inGroup; now rewrite Hg).
    rewrite app_nil_r. apply H.
  - destruct (decide (g0 = gid)) as [->|Hne].
    + assert (inGroup gid e = true) as ->
        by (unfold inGroup; rewrite Hg; apply String.eqb_refl).
      rewrite lookup_insert_eq, H. unfold groupOf.
      destruct (List.filter (inGroup gid) l); reflexivity.
    + assert (inGroup gid e = false) as ->
        by (unfold inGroup; rewrite Hg; now apply String.eqb_neq).
      rewrite lookup_insert_ne by assumption. rewrite app_nil_r. apply H.
Qed.

Lemma fold_addToGroup_spec l2 l1 m :
  (forall gid, m !! gid = groupOf l1 gid) ->
  forall gid, fold_left addToGroup l2 m !! gid = groupOf (l1 ++ l2) gid.
Proof.
  revert l1 m. induction l2 as [|e l2 IH]; intros l1 m H gid; cbn [fold_left].
  - rewrite app_nil_r. apply H.
  - replace (l1 ++ e :: l2) with ((l1 ++ [e]) ++ l2) by now rewrite <- app_assoc.
    apply IH. now apply addToGroup_spec.
Qed.

Lemma createAnimationGroups_spec l gid :
  createAnimationGroups l !! gid = groupOf l gid.
Proof.
  unfold createAnimationGroups.
  apply (fold_addToGroup_spec l [] ∅). intros g. now rewrite lookup_empty.
Qed.

Lemma groupOf_Some l gid g :
  groupOf l gid = Some g ->
  g_elements g = List.filter (inGroup gid) l /\ g_processed g = false
  /\ g_elements g <> [].
Proof.
  unfold groupOf. destruct (List.filter (inGroup gid) l) eqn:E; [discriminate|].
  intros [= <-]. cbn. repeat split. discriminate.
Qed.

(** The first element of a filtered list splits the list. *)
Lemma filter_first {A} (P : A -> bool) l x xs :
  List.filter P l = x :: xs ->
  exists l1 l2, l = l1 ++ x :: l2 /\ Forall (fun a => P a = false) l1
                /\ P x = true /\ List.filter P l2 = xs.
Proof.
  induction l as [|a l IH]; cbn; [discriminate|].
  destruct (P a) eqn:Pa.
  - intros [= -> <-]. exists [], l. repeat split; auto.
  - intros H. destruct (IH H) as (l1 & l2 & -> & Hl1 & Px & Hl2).
    exists (a :: l1), l2. repeat split; auto.
Qed.

(** *** Invariants of the loop *)

Lemma membersSat_initial sorted :
  membersSat (fun gid m => inGroup gid m = true /\ In m sorted) (initialState sorted).
Proof.
  intros gid g. cbn. rewrite createAnimationGroups_spec.
  intros (-> & _ & _)%groupOf_Some.
  apply List.Forall_forall. intros m Hm. apply List.filter_In in Hm. tauto.
Qed.

Lemma membersSat_step P st e :
  membersSat P st -> membersSat P (allocElement st e).
Proof.
  intros H gid g Hl.
  destruct (allocElement_groups st e gid) as [E|(g' & _ & Hl' & _ & E)].
  - apply (H gid). congruence.
  - rewrite E in Hl. injection Hl as <-. cbn. now apply (H gid).
Qed.

Lemma membersSat_run P l st :
  membersSat P st -> membersSat P (fold_left allocElement l st).
Proof.
  revert st. induction l as [|e l IH]; intros st H; cbn; [exact H|].
  now apply IH, membersSat_step.
Qed.

Lemma membersSat_impl (P R : string -> element -> Prop) st :
  (forall gid m, P gid m -> R gid m) -> membersSat P st -> membersSat R st.
Proof.
  intros HPR H gid g Hl. eapply List.Forall_impl; [apply HPR|]. now apply (H gid).
Qed.

Lemma groupBlock_In share members c d :
  In d (groupBlock share members c) ->
  exists m c', In m members /\ d = createElementAnimation m c' share.
Proof.
  revert c. induction members as [|m members IH]; intros c; cbn; [tauto|].
  intros [<-|H].
  - exists m, c. auto.
  - destruct (IH _ H) as (m' & c' & Hm & ->). exists m', c'. auto.
Qed.

(** Every descriptor an iteration appends is made for the element itself,
    ungrouped, with its individual duration, or for a member of the
    element's group, not processed so far, with the group's share. *)
Lemma newFrames_shape st e d :
  In d (newFrames st e) ->
  exists m c dur, d = createElementAnimation m c dur
    /\ ((m = e /\ el_groupIds e = [] /\ dur = orDuration e individualDur)
        \/ exists gid g, inGroup gid e = true /\ groups st !! gid = Some g
             /\ g_processed g = false /\ In m (g_elements g) /\ dur = groupShare g).
Proof.
  unfold newFrames. destruct (el_groupIds e) as [|gid rest] eqn:Hg.
  - intros [<-|[]]. exists e, (currentMs st), (orDuration e individualDur). auto.
  - destruct (groups st !! gid) as [g|] eqn:Hl; [|intros []].
    destruct (g_processed g) eqn:Hp; [intros []|].
    intros (m & c' & Hm & ->)%groupBlock_In.
    exists m, c', (groupShare g). split; [reflexivity|]. right.
    exists gid, g. repeat split; auto. apply inGroup_primary. now exists rest.
Qed.

Lemma createElementAnimation_element e s d : a_element (createElementAnimation e s d) = e.
Proof.
  unfold createElementAnimation.
  destruct (getElementAnimationType e), (el_groupIds e); reflexivity.
Qed.

Lemma inGroup_ungrouped gid e : el_groupIds e = [] -> inGroup gid e = false.
Proof. unfold inGroup. now intros ->. Qed.

(** A run during which every member of [gid] that is met finds the group
    processed appends no descriptor of a member of [gid]. *)
Lemma runFrames_skip_group gid l st :
  membersSat (fun g m => inGroup g m = true) st ->
  (Forall (fun e => inGroup gid e = false) l \/ processedIn st gid) ->
  Forall (fun d => inGroup gid (a_element d) = false) (runFrames l st).
Proof.
  revert st. induction l as [|e l IH]; intros st Hm Hskip; cbn [runFrames]; [constructor|].
  apply Forall_app. split.
  - apply List.Forall_forall. intros d Hd.
    destruct (newFrames_shape st e d Hd) as (m & c & dur & -> & Hcase).
    rewrite createElementAnimation_element.
    destruct Hcase as [(-> & Hg & _)|(g0 & g & Hin & Hl & Hp & Hmem & _)].
    + now apply inGroup_ungrouped.
    + assert (Hm0 : inGroup g0 m = true).
      { specialize (Hm g0 g Hl). rewrite List.Forall_forall in Hm. now apply Hm. }
      destruct (inGroup gid m) eqn:Hgm; [|reflexivity].
      pose proof (inGroup_functional _ _ _ Hgm Hm0) as ->.
      destruct Hskip as [Hall|(g' & Hl' & Hp')].
      * apply Forall_inv in Hall. congruence.
      * congruence.
  - apply IH; [now apply membersSat_step|].
    destruct Hskip as [Hall|Hproc].
    + left. now apply Forall_inv_tail in Hall.
    + right. now apply allocElement_keeps_processed.
Qed.

(** *** Durations and the cursor *)

Lemma orDuration_no_override e d : durationOverride e = 0%Z -> orDuration e d = d.
Proof. unfold orDuration, durationOverride. now intros ->. Qed.

Lemma orDuration_idem e d : orDuration e (orDuration e d) = orDuration e d.
Proof. unfold orDuration. now destruct (Z.eqb _ 0). Qed.

Lemma orDuration_nonneg e d :
  (0 <= durationOverride e)%Z -> 0 <= d -> 0 <= orDuration e d.
Proof.
  unfold orDuration, durationOverride. intros Hz Hd.
  destruct (Z.eqb _ 0); [exact Hd|].
  change 0 with (inject_Z 0). now rewrite <- Zle_Qle.
Qed.

Lemma orDuration_nonzero e d : ~ d == 0 -> ~ orDuration e d == 0.
Proof.
  unfold orDuration. intros Hd.
  destruct (Z.eqb_spec (extractNumberFromElement e "animateDuration") 0) as [E|E];
    [exact Hd|].
  intros H. apply E. apply inject_Z_injective. exact H.
Qed.

Lemma chained_compat c1 c2 l c' : c1 == c2 -> chained c1 l c' -> chained c2 l c'.
Proof.
  revert c1 c2. induction l as [|d l IH]; intros c1 c2 E; cbn.
  - intros H. now rewrite <- E.
  - intros [Hs Hl]. split; [now rewrite <- E|].
    eapply IH; [|exact Hl]. now rewrite E.
Qed.

Lemma chained_app c l1 cm l2 c' :
  chained c l1 cm -> chained cm l2 c' -> chained c (l1 ++ l2) c'.
Proof.
  revert c. induction l1 as [|d l1 IH]; intros c; cbn.
  - intros E. apply chained_compat. now symmetry.
  - intros [Hs Hl] H2. split; [exact Hs|]. now apply IH.
Qed.

Lemma chained_bounds c l c' :
  chained c l c' -> Forall (fun d => 0 <= durationMs d) l ->
  c <= c' /\ Forall (fun d => c <= startMs d /\ startMs d + durationMs d <= c') l.
Proof.
  revert c. induction l as [|d l IH]; intros c; cbn.
  - intros E _. split; [lra|constructor].
  - intros [Hs Hl] Hpos. pose proof (Forall_inv Hpos) as Hd. cbn beta in Hd.
    apply Forall_inv_tail in Hpos.
    destruct (IH _ Hl Hpos) as [Hle Hall]. split; [lra|].
    constructor; [lra|].
    eapply List.Forall_impl; [|exact Hall]. cbn. intros a [? ?]. split; lra.
Qed.

Lemma groupBlock_chained share members c :
  Forall (fun m => durationOverride m = 0%Z) members ->
  chained c (groupBlock share members c) (advance share members c).
Proof.
  intros H. revert c. induction H as [|m members Hm _ IH]; intros c; cbn.
  - reflexivity.
  - destruct (createElementAnimation_times m c share) as [-> ->].
    split; [reflexivity|]. rewrite orDuration_no_override by assumption. apply IH.
Qed.

Lemma groupBlock_lookup share members c (i : nat) m :
  members !! i = Some m ->
  exists d, groupBlock share members c !! i = Some d
            /\ a_element d = m
            /\ startMs d == c + inject_Z (Z.of_nat i) * share
            /\ durationMs d = orDuration m share.
Proof.
  revert c i. induction members as [|m0 members IH]; intros c i; [discriminate|].
  destruct i as [|i]; cbn.
  - intros [= ->]. eexists. split; [reflexivity|].
    destruct (createElementAnimation_times m c share) as [-> ->].
    rewrite createElementAnimation_element. repeat split. ring.
  - intros H. destruct (IH (c + share) i H) as (d & Hd & He & Hs & Hdur).
    exists d. repeat split; try assumption.
    rewrite Hs. change (Z.pos (Pos.of_succ_nat i)) with (Z.of_nat (S i)).
    rewrite inject_Z_succ. ring.
Qed.

Lemma newFrames_chained st e :
  membersSat (fun _ m => durationOverride m = 0%Z) st ->
  chained (currentMs st) (newFrames st e) (currentMs (allocElement st e)).
Proof.
  intros Hm. unfold newFrames, allocElement.
  destruct (el_groupIds e) as [|gid rest].
  - cbn. destruct (createElementAnimation_times e (currentMs st)
                     (orDuration e individualDur)) as [-> ->].
    rewrite orDuration_idem. split; reflexivity.
  - destruct (groups st !! gid) as [g|] eqn:Hl; [|reflexivity].
    destruct (g_processed g); [reflexivity|].
    rewrite scheduleGroup_eq. cbn. apply groupBlock_chained. now apply (Hm gid).
Qed.

Lemma runFrames_chained l st :
  membersSat (fun _ m => durationOverride m = 0%Z) st ->
  chained (currentMs st) (runFrames l st) (currentMs (fold_left allocElement l st)).
Proof.
  revert st. induction l as [|e l IH]; intros st Hm; cbn [runFrames fold_left].
  - reflexivity.
  - eapply chained_app; [now apply newFrames_chained|].
    now apply IH, membersSat_step.
Qed.

Lemma runFrames_nonneg l st :
  membersSat (fun _ m => (0 <= durationOverride m)%Z) st ->
  Forall (fun e => (0 <= durationOverride e)%Z) l ->
  Forall (fun d => 0 <= durationMs d) (runFrames l st).
Proof.
  intros Hm Hl. revert st Hm.
  induction Hl as [|e l He _ IH]; intros st Hm; cbn [runFrames]; [constructor|].
  apply Forall_app. split; [|now apply IH, membersSat_step].
  apply List.Forall_forall. intros d Hd.
  destruct (newFrames_shape st e d Hd) as (m & c & dur & -> & Hcase).
  rewrite (proj2 (createElementAnimation_times m c dur)).
  destruct Hcase as [(-> & _ & ->)|(g0 & g & _ & Hl & _ & Hmem & ->)].
  - rewrite orDuration_idem. apply orDuration_nonneg; [exact He|].
    unfold individualDur. lra.
  - apply orDuration_nonneg; [|apply Qlt_le_weak, groupShare_pos].
    specialize (Hm g0 g Hl). rewrite List.Forall_forall in Hm. now apply Hm.
Qed.

Lemma runFrames_nonzero l st :
  Forall (fun d => ~ durationMs d == 0) (runFrames l st).
Proof.
  revert st. induction l as [|e l IH]; intros st; cbn [runFrames]; [constructor|].
  apply Forall_app. split; [|apply IH].
  apply List.Forall_forall. intros d Hd.
  destruct (newFrames_shape st e d Hd) as (m & c & dur & -> & Hcase).
  rewrite (proj2 (createElementAnimation_times m c dur)).
  apply orDuration_nonzero.
  destruct Hcase as [(_ & _ & ->)|(g0 & g & _ & _ & _ & _ & ->)].
  - apply orDuration_nonzero. unfold individualDur. lra.
  - pose proof (groupShare_pos g). lra.
Qed.

Lemma chained_end_compat c l c1 c2 : c1 == c2 -> chained c l c1 -> chained c l c2.
Proof.
  revert c. induction l as [|d l IH]; intros c E; cbn.
  - intros H. now rewrite <- E.
  - intros [Hs Hl]. split; [exact Hs|]. now apply IH.
Qed.

Lemma sorted_In elements e :
  In e (sortElementsByDaiShiOrder elements) -> In e elements.
Proof.
  apply Permutation_in. symmetry. apply sort_by_perm.
Qed.

Lemma inGroup_grouped gid e : inGroup gid e = true -> el_groupIds e <> [].
Proof. intros [rest H]%inGroup_primary. now rewrite H. Qed.

(** The group records of a run over the resolved elements list resolved
    elements only, each under its primary group. *)
Lemma membersSat_allocate elements l :
  membersSat (fun gid m => inGroup gid m = true /\ In m elements)
    (fold_left allocElement l (initialState (sortElementsByDaiShiOrder elements))).
Proof.
  apply membersSat_run.
  eapply membersSat_impl; [|apply membersSat_initial].
  intros gid m [? ?]. split; [assumption|]. now apply sorted_In.
Qed.




(** *** Durations of the emitted descriptors *)

Lemma allocate_frames sorted :
  animatedFrames (allocate sorted) = runFrames sorted (initialState sorted).
Proof. unfold allocate. now rewrite run_frames. Qed.

Lemma createElementAnimation_parts e s dur :
  (forall p, a_pointer (createElementAnimation e s dur) = Some p ->
     ptr_startMs p = s
     /\ ptr_durationMs p = durationMs (createElementAnimation e s dur))
  /\ (forall f, a_fill (createElementAnimation e s dur) = Some f ->
        fill_durationMs f = durationMs (createElementAnimation e s dur) * 0.25)
  /\ (forall sd, a_strokeDuration (createElementAnimation e s dur) = Some sd ->
        sd = durationMs (createElementAnimation e s dur) * 0.75).
Proof.
  unfold a_pointer, a_fill, a_strokeDuration.
  rewrite (proj2 (createElementAnimation_times e s dur)), createElementAnimation_kind.
  destruct (getElementAnimationType e);
    unfold animatePath, animatePolygon, animateText, animateFreedraw,
           animateImage, animateGeneric, mkAnimation; cbn [a_kind];
    repeat split; try discriminate;
    try (intros ? [= <-]; reflexivity);
    try match goal with
        | H : Some _ = Some _ |- _ => injection H as <-; reflexivity
        end.
  intros f. rewrite animateFillPath_hasFill. destruct (hasFill e); [|discriminate].
  now intros [= <-].
Qed.

Lemma runFrames_created l st :
  Forall (fun d => exists m c dur, d = createElementAnimation m c dur) (runFrames l st).
Proof.
  revert st. induction l as [|e l IH]; intros st; cbn [runFrames]; [constructor|].
  apply Forall_app. split; [|apply IH].
  apply List.Forall_forall. intros d Hd.
  destruct (newFrames_shape st e d Hd) as (m & c & dur & -> & _). eauto.
Qed.




Lemma allocate_durations_nonzero (cfg : config) (w : env) (elements : list element) :
  Forall (fun d => ~ durationMs d == 0)
         (r_frames (generateWithExcalidrawAnimate cfg w elements)).
Proof.
  cbn [generateWithExcalidrawAnimate r_frames]. rewrite allocate_frames.
  apply runFrames_nonzero.
Qed.

Lemma encodes_zero key e : encodes key 0 e -> extractNumberFromElement e key = 0%Z.
Proof.
  intros (c & Hc & Hn). unfold extractNumberFromElement. now rewrite Hc, Hn.
Qed.

(** C10. An id that encodes animateDuration:0 yields the extracted value 0,
    the value of an id without the key: the element is allocated the
    default 500 ms when ungrouped, and its descriptor takes whatever
    duration it is handed.  An id that encodes animateOrder:0 yields order
    0, and against another element of order 0 the comparison is by time.
    No descriptor of any allocation has duration zero. *)
Theorem zero_override_is_no_override (e : element) :
  (encodes "animateDuration" 0 e ->
     durationOverride e = 0%Z
     /\ orDuration e individualDur = 500
     /\ (forall s d, durationMs (createElementAnimation e s d) = d)
     /\ (el_groupIds e = [] -> forall st,
           newFrames st e = [createElementAnimation e (currentMs st) 500]
           /\ currentMs (allocElement st e) = currentMs st + 500))
  /\ (encodes "animateOrder" 0 e ->
        orderHint e = 0%Z
        /\ forall b, orderHint b = 0%Z ->
             compareElements e b = elementTime e - elementTime b)
  /\ (forall cfg w elements,
        Forall (fun d => ~ durationMs d == 0)
               (r_frames (generateWithExcalidrawAnimate cfg w elements))).
Proof.
  split; [|split].
  - intros H%encodes_zero.
    assert (Hd : forall d, orDuration e d = d) by (intros d; now apply orDuration_no_override).
    split; [exact H|]. split; [apply Hd|]. split.
    + intros s d. now rewrite (proj2 (createElementAnimation_times e s d)).
    + intros Hg st. unfold newFrames, allocElement. now rewrite Hg, Hd.
  - intros H%encodes_zero. split; [exact H|].
    intros b Hb. unfold compareElements. unfold orderHint in Hb. now rewrite H, Hb.
  - apply allocate_durations_nonzero.
Qed.

Lemma zero_override_is_no_override_witness :
  encodes "animateDuration" 0
    (bareElement "step-animateOrder:0-animateDuration:0" "rectangle" [])
  /\ encodes "animateOrder" 0
       (bareElement "step-animateOrder:0-animateDuration:0" "rectangle" [])
  /\ durationMs (createElementAnimation
                   (bareElement "step-animateOrder:0-animateDuration:0" "rectangle" [])
                   1000 500) = 500
  /\ orderHint (bareElement "step-animateOrder:0-animateDuration:0" "rectangle" []) = 0%Z.
Proof.
  assert (Hd : encodes "animateDuration" 0
                 (bareElement "step-animateOrder:0-animateDuration:0" "rectangle" []))
    by (exists "0"; split; reflexivity).
  assert (Ho : encodes "animateOrder" 0
                 (bareElement "step-animateOrder:0-animateDuration:0" "rectangle" []))
    by (exists "0"; split; reflexivity).
  destruct (zero_override_is_no_override
              (bareElement "step-animateOrder:0-animateDuration:0" "rectangle" []))
    as (H1 & H2 & _).
  split; [exact Hd|]. split; [exact Ho|]. split.
  - apply (proj1 (proj2 (proj2 (H1 Hd)))).
  - apply (proj1 (H2 Ho)).
Defined.

(** ** Determinism *)

Lemma getElementAnimationType_text e :
  getElementAnimationType e = TyText -> el_type e = "text".
Proof.
  unfold getElementAnimationType.
  destruct (String.eqb_spec (el_type e) "text") as [E|E]; [auto|]. clear E.
  set (t := el_type e).
  destruct (String.eqb t "line"), (String.eqb t "arrow"), (String.eqb t "rectangle"),
    (String.eqb t "diamond"), (String.eqb t "ellipse"), (String.eqb t "freedraw"),
    (String.eqb t "image"), (hasFill e), (el_roundness e); cbn; discriminate.
Qed.

Lemma text_kind_type m c dur ch tp tw ptr :
  a_kind (createElementAnimation m c dur) = TextAnimation ch tp tw ptr ->
  el_type m = "text".
Proof.
  rewrite createElementAnimation_kind.
  destruct (getElementAnimationType m) eqn:E; cbn; try discriminate.
  intros _. now apply getElementAnimationType_text.
Qed.

Lemma createSvgElement_pure w1 k1 w2 k2 m c dur i :
  textReady m ->
  fst (createSvgElement w1 k1 m (createElementAnimation m c dur) i)
  = fst (createSvgElement w2 k2 m (createElementAnimation m c dur) i)
  /\ snd (createSvgElement w1 k1 m (createElementAnimation m c dur) i) = k1.
Proof.
  intros Hready. unfold createSvgElement.
  destruct (a_kind (createElementAnimation m c dur)) eqn:K; try (split; reflexivity).
  destruct (Hready (text_kind_type _ _ _ _ _ _ _ K)) as [Ht Hid].
  apply String.eqb_neq in Hid.
  unfold createProgressiveTextSvg. rewrite Ht, Hid. split; reflexivity.
Qed.

Lemma createSvgElements_pure frames w1 k1 w2 k2 i :
  Forall (fun d => textReady (a_element d)
                   /\ exists m c dur, d = createElementAnimation m c dur) frames ->
  createSvgElements w1 k1 i frames = createSvgElements w2 k2 i frames.
Proof.
  intros H. revert k1 k2 i.
  induction H as [|d frames (Hr & m & c & dur & ->) _ IH]; intros k1 k2 i;
    [reflexivity|].
  cbn [createSvgElements]. rewrite createElementAnimation_element in *.
  destruct (createSvgElement_pure w1 k1 w2 k2 m c dur i Hr) as [-> _].
  f_equal. apply IH.
Qed.

Lemma runFrames_elements (P : element -> Prop) l st :
  membersSat (fun _ m => P m) st -> Forall P l ->
  Forall (fun d => P (a_element d)) (runFrames l st).
Proof.
  intros Hm Hl. revert st Hm.
  induction Hl as [|e l He _ IH]; intros st Hm; cbn [runFrames]; [constructor|].
  apply Forall_app. split; [|now apply IH, membersSat_step].
  apply List.Forall_forall. intros d Hd.
  destruct (newFrames_shape st e d Hd) as (m & c & dur & -> & Hcase).
  rewrite createElementAnimation_element.
  destruct Hcase as [(-> & _)|(g0 & g & _ & Hl & _ & Hmem & _)]; [exact He|].
  specialize (Hm g0 g Hl). rewrite List.Forall_forall in Hm. now apply Hm.
Qed.




(** ** NarrationSynchronizer *)

Lemma audioTimelineLoop_spec audioSegments script cur acc tl :
  audioTimelineLoop audioSegments script cur acc = Some tl ->
  exists segs, tl_segments tl = acc ++ segs
    /\ cursorChain cur segs (tl_totalDuration tl)
    /\ map seg_duration segs = map au_duration audioSegments
    /\ map seg_elements segs = take (length audioSegments) script.
Proof.
  revert script cur acc.
  induction audioSegments as [|audio rest IH]; intros script cur acc; cbn.
  - intros [= <-]. exists []. cbn. now rewrite app_nil_r.
  - destruct script as [|scriptElements script]; [discriminate|].
    intros H. destruct (IH _ _ _ H) as (segs & Hs & Hc & Hd & He).
    eexists (_ :: segs). rewrite Hs, <- app_assoc. cbn.
    repeat split; try assumption; now f_equal.
Qed.

Lemma segmentTimestamps_lookup seg (i : nat) e :
  seg_elements seg !! i = Some e ->
  exists t cr up,
    segmentTimestamps seg !! i = Some t /\ ts_id t = el_id e
    /\ ts_created t = Some cr /\ ts_updated t = Some up
    /\ cr == seg_startTime seg
             + seg_duration seg / inject_Z (Z.of_nat (length (seg_elements seg)))
               * inject_Z (Z.of_nat i)
    /\ up - cr == seg_duration seg / inject_Z (Z.of_nat (length (seg_elements seg))).
Proof.
  intros H. unfold segmentTimestamps. rewrite list_lookup_imap, H. cbn.
  eexists _, _, _. repeat split; try reflexivity. ring.
Qed.

Lemma hasTimestamp_app ts1 ts2 e :
  hasTimestamp (ts1 ++ ts2) e = (hasTimestamp ts1 e || hasTimestamp ts2 e)%bool.
Proof. unfold hasTimestamp. apply existsb_app. Qed.

Lemma fold_addRemaining tl elements ts :
  exists remaining,
    fold_left (addRemaining tl) elements ts = ts ++ remaining
    /\ Forall (fun t => ts_created t = Some (tl_totalDuration tl)
                        /\ ts_updated t = Some (tl_totalDuration tl + 1000)
                        /\ exists e, In e elements /\ ts_id t = el_id e
                                     /\ hasTimestamp ts e = false) remaining
    /\ forall e, In e elements -> hasTimestamp (ts ++ remaining) e = true.
Proof.
  revert ts. induction elements as [|e elements IH]; intros ts; cbn [fold_left].
  - exists []. rewrite app_nil_r. repeat split; [constructor|intros ? []].
  - unfold addRemaining at 2. destruct (hasTimestamp ts e) eqn:He.
    + destruct (IH ts) as (rem & Hf & Hall & Hcov). exists rem.
      split; [exact Hf|]. split.
      * eapply List.Forall_impl; [|exact Hall]. cbn.
        intros t (? & ? & e' & ? & ? & ?). eauto 8.
      * intros e' [<-|Hin]; [|now apply Hcov].
        now rewrite hasTimestamp_app, He.
    + match goal with
      | |- context [fold_left _ _ (ts ++ [?t0])] => set (t := t0)
      end.
      destruct (IH (ts ++ [t])) as (rem & Hf & Hall & Hcov). exists (t :: rem).
      replace (ts ++ t :: rem) with ((ts ++ [t]) ++ rem) by now rewrite <- app_assoc.
      split; [exact Hf|]. split.
      * constructor; [cbn; eauto 8|].
        eapply List.Forall_impl; [|exact Hall]. cbn.
        intros t' (? & ? & e' & ? & ? & Hn). repeat split; try assumption.
        exists e'. repeat split; auto.
        rewrite hasTimestamp_app in Hn. now apply orb_false_elim in Hn.
      * intros e' [<-|Hin]; [|now apply Hcov].
        rewrite !hasTimestamp_app. cbn. rewrite String.eqb_refl.
        now rewrite orb_true_r.
Qed.

(** C6, as the code has it.  The segments follow the running narration
    cursor (audio duration plus a pause of 500 ms each); the elements of a
    segment share its duration equally, one after the other from the start
    of the segment.  Every element whose id has no timestamp yet is appended
    after the covered ones with the slot that starts at the final cursor,
    the total duration of the timeline, and lasts 1000 ms; these slots all
    start at the same time. *)
Theorem narration_shares_and_remaining
    (audioSegments : list audioSegment) (script : list (list element))
    (tl : timeline) (elements : list element) :
  createAudioTimeline audioSegments script = Some tl ->
  cursorChain 0 (tl_segments tl) (tl_totalDuration tl)
  /\ map seg_duration (tl_segments tl) = map au_duration audioSegments
  /\ map seg_elements (tl_segments tl) = take (length audioSegments) script
  /\ (forall seg (i : nat) e,
        In seg (tl_segments tl) -> seg_elements seg !! i = Some e ->
        exists t cr up,
          segmentTimestamps seg !! i = Some t /\ ts_id t = el_id e
          /\ ts_created t = Some cr /\ ts_updated t = Some up
          /\ cr == seg_startTime seg
                   + seg_duration seg / inject_Z (Z.of_nat (length (seg_elements seg)))
                     * inject_Z (Z.of_nat i)
          /\ up - cr == seg_duration seg
                        / inject_Z (Z.of_nat (length (seg_elements seg))))
  /\ exists remaining,
       createSynchronizedTimestamps elements tl
       = flat_map segmentTimestamps (tl_segments tl) ++ remaining
       /\ Forall (fun t =>
                    ts_created t = Some (tl_totalDuration tl)
                    /\ ts_updated t = Some (tl_totalDuration tl + 1000)
                    /\ exists e, In e elements /\ ts_id t = el_id e
                         /\ hasTimestamp (flat_map segmentTimestamps (tl_segments tl)) e
                            = false)
                 remaining
       /\ (forall e, In e elements ->
             hasTimestamp (flat_map segmentTimestamps (tl_segments tl)) e = false ->
             exists t, In t remaining /\ ts_id t = el_id e).
Proof.
  intros H. unfold createAudioTimeline in H.
  destruct (audioTimelineLoop_spec _ _ _ _ _ H) as (segs & Hs & Hc & Hd & He).
  cbn in Hs. subst segs.
  split; [exact Hc|]. split; [exact Hd|]. split; [exact He|]. split.
  - intros seg i e _. apply segmentTimestamps_lookup.
  - unfold createSynchronizedTimestamps.
    destruct (fold_addRemaining tl elements
                (flat_map segmentTimestamps (tl_segments tl)))
      as (rem & Hf & Hall & Hcov).
    exists rem. split; [exact Hf|]. split; [exact Hall|].
    intros e Hin Hno. specialize (Hcov e Hin).
    rewrite hasTimestamp_app, Hno in Hcov. cbn in Hcov.
    apply existsb_exists in Hcov as (t & Ht & Heq).
    exists t. split; [exact Ht|]. now apply String.eqb_eq.
Qed.

Lemma narration_shares_and_remaining_witness :
  exists tl,
    createAudioTimeline [audioOf "group-0" 4000; audioOf "group-1" 2000]
      [[bareElement "A" "rectangle" []; bareElement "B" "rectangle" []];
       [bareElement "C" "text" []]]
    = Some tl
    /\ cursorChain 0 (tl_segments tl) (tl_totalDuration tl)
    /\ tl_totalDuration tl == 7000.
Proof.
  eexists. split; [reflexivity|].
  split; [|reflexivity].
  apply (narration_shares_and_remaining
           [audioOf "group-0" 4000; audioOf "group-1" 2000]
           [[bareElement "A" "rectangle" []; bareElement "B" "rectangle" []];
            [bareElement "C" "text" []]] _ []).
  reflexivity.
Defined.

(** An element no segment covers gets a slot of 1000 ms, not of 500 ms. *)
Lemma uncovered_element_slot_is_1000 :
  exists tl t1 t2 cr up,
    createAudioTimeline [audioOf "group-0" 2000] [[bareElement "A" "rectangle" []]]
    = Some tl
    /\ createSynchronizedTimestamps
         [bareElement "A" "rectangle" []; bareElement "B" "ellipse" []] tl
       = [t1; t2]
    /\ ts_id t2 = "B"
    /\ ts_created t2 = Some cr /\ ts_updated t2 = Some up
    /\ cr == 2500 /\ up - cr == 1000 /\ ~ up - cr == 500.
Proof.
  eexists _, _, _, _, _. split; [reflexivity|].
  split; [vm_compute; reflexivity|].
  repeat split. intros H. vm_compute in H. discriminate.
Qed.

(** * Further properties *)

(** ** The allocator schedules every element once *)

Lemma groupAfter_initial sorted gid : groupOf sorted gid = groupAfter sorted [] gid.
Proof. reflexivity. Qed.

Lemma filter_inGroup_nonempty gid e l :
  In e l -> inGroup gid e = true -> List.filter (inGroup gid) l <> [].
Proof.
  intros Hin Hg E.
  assert (In e (List.filter (inGroup gid) l)) as H by (apply List.filter_In; auto).
  now rewrite E in H.
Qed.

Lemma inGroup_other g0 gid e : inGroup g0 e = true -> g0 <> gid -> inGroup gid e = false.
Proof.
  intros H0 Hne. destruct (inGroup gid e) eqn:E; [|reflexivity].
  exfalso. apply Hne. eapply inGroup_functional; eassumption.
Qed.

Lemma existsb_snoc {A} (f : A -> bool) l x :
  existsb f (l ++ [x]) = (existsb f l || f x)%bool.
Proof. rewrite existsb_app. cbn. now rewrite orb_false_r. Qed.

(** The group records follow the loop: the members never change, the flag
    of a group is set from its first member on. *)
Lemma allocElement_groupAfter sorted done e st :
  In e sorted ->
  (forall gid, groups st !! gid = groupAfter sorted done gid) ->
  forall gid, groups (allocElement st e) !! gid = groupAfter sorted (done ++ [e]) gid.
Proof.
  intros Hin Hinv gid. unfold groupAfter. rewrite existsb_snoc.
  destruct (el_groupIds e) as [|g0 rest] eqn:Hg.
  - assert (inGroup gid e = false) as -> by now apply inGroup_ungrouped.
    rewrite orb_false_r. unfold allocElement. rewrite Hg. apply Hinv.
  - assert (H0 : inGroup g0 e = true) by (apply inGroup_primary; eauto).
    pose proof (Hinv g0) as Hl0. unfold groupAfter in Hl0.
    pose proof (filter_inGroup_nonempty g0 e sorted Hin H0) as Hne.
    destruct (List.filter (inGroup g0) sorted) as [|m ms] eqn:Ems; [congruence|].
    destruct (existsb (inGroup g0) done) eqn:Edone.
    + rewrite (allocElement_processed_group st e g0 _ H0 Hl0 eq_refl).
      rewrite Hinv. unfold groupAfter.
      destruct (decide (g0 = gid)) as [<-|Hd].
      * now rewrite Edone.
      * now rewrite (inGroup_other g0 gid e H0 Hd), orb_false_r.
    + rewrite (allocElement_fresh_group st e g0 _ H0 Hl0 eq_refl). cbn [groups g_elements].
      destruct (decide (g0 = gid)) as [<-|Hd].
      * now rewrite lookup_insert_eq, Ems, H0, orb_true_r.
      * rewrite lookup_insert_ne by assumption.
        rewrite (inGroup_other g0 gid e H0 Hd), orb_false_r. apply Hinv.
Qed.

Lemma run_groupAfter sorted rest done st :
  (forall e, In e rest -> In e sorted) ->
  (forall gid, groups st !! gid = groupAfter sorted done gid) ->
  forall gid, groups (fold_left allocElement rest st) !! gid
              = groupAfter sorted (done ++ rest) gid.
Proof.
  revert done st. induction rest as [|e rest IH]; intros done st Hsub Hinv gid.
  - cbn. rewrite app_nil_r. apply Hinv.
  - cbn [fold_left].
    replace (done ++ e :: rest) with ((done ++ [e]) ++ rest) by now rewrite <- app_assoc.
    apply IH.
    + intros x Hx. apply Hsub. now right.
    + apply allocElement_groupAfter; [|exact Hinv]. apply Hsub. now left.
Qed.

Lemma allocate_groupAfter sorted gid :
  groups (allocate sorted) !! gid = groupAfter sorted sorted gid.
Proof.
  unfold allocate.
  apply (run_groupAfter sorted sorted [] (initialState sorted)); [auto|].
  intros g. cbn. now rewrite createAnimationGroups_spec.
Qed.

(** X2. When the allocation ends no group is left unscheduled: every group
    record holds the elements whose primary group it is, in resolved order,
    at least one, and is marked processed. *)
Theorem allocate_processes_every_group (elements : list element) (gid : string) (g : group) :
  groups (allocate (sortElementsByDaiShiOrder elements)) !! gid = Some g ->
  g_processed g = true
  /\ g_elements g = List.filter (inGroup gid) (sortElementsByDaiShiOrder elements)
  /\ g_elements g <> [].
Proof.
  rewrite allocate_groupAfter. unfold groupAfter.
  destruct (List.filter (inGroup gid) (sortElementsByDaiShiOrder elements))
    as [|m ms] eqn:E; [discriminate|].
  intros [= <-]. cbn. repeat split; [|discriminate].
  apply existsb_exists. exists m.
  assert (In m (List.filter (inGroup gid) (sortElementsByDaiShiOrder elements))) as H
    by (rewrite E; now left).
  apply List.filter_In in H. exact H.
Qed.

Lemma groupBlock_elements share members c :
  map a_element (groupBlock share members c) = members.
Proof.
  revert c. induction members as [|m members IH]; intros c; cbn; [reflexivity|].
  now rewrite createElementAnimation_element, IH.
Qed.

Lemma sumQ_app l1 l2 : sumQ (l1 ++ l2) == sumQ l1 + sumQ l2.
Proof. induction l1 as [|x l1 IH]; cbn; [ring|]. rewrite IH. ring. Qed.

Lemma sumQ_perm l1 l2 : Permutation l1 l2 -> sumQ l1 == sumQ l2.
Proof.
  induction 1 as [|x l1 l2 _ IH|x y l|l1 l2 l3 _ IH1 _ IH2]; cbn.
  - reflexivity.
  - now rewrite IH.
  - ring.
  - now rewrite IH1.
Qed.

Lemma sumQ_const {A} (f : A -> Q) (s : Q) l :
  Forall (fun x => f x == s) l ->
  sumQ (map f l) == inject_Z (Z.of_nat (length l)) * s.
Proof.
  induction 1 as [|x l Hx _ IH]; cbn [map sumQ length].
  - cbn. ring.
  - rewrite IH, Hx, inject_Z_succ. ring.
Qed.

Lemma filter_perm {A} (p : A -> bool) l1 l2 :
  Permutation l1 l2 -> Permutation (List.filter p l1) (List.filter p l2).
Proof.
  induction 1 as [|x l1 l2 _ IH|x y l|l1 l2 l3 _ IH1 _ IH2]; cbn.
  - constructor.
  - destruct (p x); [now constructor|exact IH].
  - destruct (p x), (p y); try reflexivity. apply perm_swap.
  - now rewrite IH1.
Qed.

Lemma filter_split_perm {A} (p q r : A -> bool) l :
  (forall x, In x l -> r x = (p x || q x)%bool) ->
  (forall x, In x l -> p x = true -> q x = false) ->
  Permutation (List.filter r l) (List.filter p l ++ List.filter q l).
Proof.
  induction l as [|x l IH]; intros Hr Hd; cbn; [constructor|].
  assert (IH' : Permutation (List.filter r l) (List.filter p l ++ List.filter q l)).
  { apply IH; intros y Hy; [apply Hr|apply Hd]; now right. }
  rewrite (Hr x (or_introl eq_refl)).
  destruct (p x) eqn:Px.
  - rewrite (Hd x (or_introl eq_refl) Px). cbn. now constructor.
  - destruct (q x); cbn; [|exact IH'].
    rewrite IH'. apply Permutation_middle.
Qed.

Lemma filter_same {A} (p q : A -> bool) l :
  (forall x, In x l -> p x = q x) -> List.filter p l = List.filter q l.
Proof.
  induction l as [|x l IH]; intros H; cbn; [reflexivity|].
  rewrite (H x (or_introl eq_refl)), IH; [reflexivity|].
  intros y Hy. apply H. now right.
Qed.

Lemma filter_none {A} (p : A -> bool) l :
  (forall x, In x l -> p x = false) -> List.filter p l = [].
Proof.
  induction l as [|x l IH]; intros H; cbn; [reflexivity|].
  rewrite (H x (or_introl eq_refl)). apply IH. intros y Hy. apply H. now right.
Qed.

Lemma touched_snoc done e x :
  touched (done ++ [e]) x
  = (touched done x
     || match el_groupIds e with g0 :: _ => inGroup g0 x | [] => false end)%bool.
Proof.
  unfold touched. destruct (el_groupIds x) as [|g rest] eqn:Hx.
  - destruct (el_groupIds e); [reflexivity|]. cbn.
    unfold inGroup. now rewrite Hx.
  - rewrite existsb_snoc. f_equal. unfold inGroup. rewrite Hx.
    destruct (el_groupIds e); [reflexivity|]. apply String.eqb_sym.
Qed.

Lemma touched_member gid done x :
  inGroup gid x = true -> touched done x = existsb (inGroup gid) done.
Proof.
  intros [rest H]%inGroup_primary. unfold touched. now rewrite H.
Qed.

(** What one iteration schedules, given the group records of the loop. *)
Lemma allocElement_schedules sorted done e st :
  In e sorted ->
  (forall gid, groups st !! gid = groupAfter sorted done gid) ->
  Permutation (scheduledAfter sorted done ++ map a_element (newFrames st e))
              (scheduledAfter sorted (done ++ [e]))
  /\ currentMs (allocElement st e)
     == currentMs st + sumQ (map (slot sorted) (map a_element (newFrames st e))).
Proof.
  intros Hin Hinv. unfold scheduledAfter. rewrite List.filter_app. cbn [List.filter].
  destruct (el_groupIds e) as [|g0 rest] eqn:Hg.
  - assert (ungrouped e = true) as -> by (unfold ungrouped; now rewrite Hg).
    rewrite (filter_same (touched (done ++ [e])) (touched done))
      by (intros x _; rewrite touched_snoc, Hg; apply orb_false_r).
    unfold newFrames, allocElement. rewrite Hg. cbn.
    rewrite createElementAnimation_element. split.
    + rewrite <- !app_assoc. apply Permutation_app_head.
      cbn. symmetry. apply Permutation_cons_append.
    + unfold slot. rewrite Hg. ring.
  - assert (ungrouped e = false) as -> by (unfold ungrouped; now rewrite Hg).
    rewrite app_nil_r.
    assert (H0 : inGroup g0 e = true) by (apply inGroup_primary; eauto).
    pose proof (Hinv g0) as Hl0. unfold groupAfter in Hl0.
    pose proof (filter_inGroup_nonempty g0 e sorted Hin H0) as Hne.
    destruct (List.filter (inGroup g0) sorted) as [|m ms] eqn:Ems; [congruence|].
    rewrite <- Ems in *. clear Hne.
    destruct (existsb (inGroup g0) done) eqn:Edone.
    + rewrite (allocElement_processed_group st e g0 _ H0 Hl0 eq_refl).
      unfold newFrames. rewrite Hg, Hl0. cbn. rewrite app_nil_r. split; [|ring].
      rewrite (filter_same (touched (done ++ [e])) (touched done)); [reflexivity|].
      intros x _. rewrite touched_snoc, Hg.
      destruct (inGroup g0 x) eqn:Hx; [|apply orb_false_r].
      now rewrite (touched_member g0 done x Hx), Edone.
    + rewrite (allocElement_fresh_group st e g0 _ H0 Hl0 eq_refl).
      unfold newFrames. rewrite Hg, Hl0. cbn [g_processed g_elements currentMs].
      rewrite groupBlock_elements. split.
      * rewrite <- app_assoc. apply Permutation_app_head. symmetry.
        apply filter_split_perm.
        -- intros x _. rewrite touched_snoc, Hg. reflexivity.
        -- intros x _ Ht. destruct (inGroup g0 x) eqn:Hx; [|reflexivity].
           rewrite (touched_member g0 done x Hx) in Ht. congruence.
      * rewrite advance_eq.
        rewrite (sumQ_const (slot sorted) (groupShare
                   {| g_elements := List.filter (inGroup g0) sorted;
                      g_processed := false |})).
        -- reflexivity.
        -- apply List.Forall_forall. intros x Hx. apply List.filter_In in Hx as [_ Hx].
           apply inGroup_primary in Hx as [r Hx]. unfold slot, groupShare. rewrite Hx.
           reflexivity.
Qed.

Lemma run_schedules sorted rest done st :
  (forall e, In e rest -> In e sorted) ->
  (forall gid, groups st !! gid = groupAfter sorted done gid) ->
  Permutation (scheduledAfter sorted done ++ map a_element (runFrames rest st))
              (scheduledAfter sorted (done ++ rest))
  /\ currentMs (fold_left allocElement rest st)
     == currentMs st + sumQ (map (slot sorted) (map a_element (runFrames rest st))).
Proof.
  revert done st. induction rest as [|e rest IH]; intros done st Hsub Hinv.
  - cbn. rewrite !app_nil_r. split; [reflexivity|ring].
  - cbn [fold_left runFrames].
    assert (Hin : In e sorted) by (apply Hsub; now left).
    destruct (allocElement_schedules sorted done e st Hin Hinv) as [Hp Hc].
    destruct (IH (done ++ [e]) (allocElement st e)) as [Hp' Hc'].
    { intros x Hx. apply Hsub. now right. }
    { now apply allocElement_groupAfter. }
    replace (done ++ e :: rest) with ((done ++ [e]) ++ rest) by now rewrite <- app_assoc.
    split.
    + rewrite <- Hp', <- Hp, map_app, <- app_assoc. reflexivity.
    + rewrite Hc', Hc, !map_app, sumQ_app. ring.
Qed.

Lemma scheduledAfter_all sorted : Permutation (scheduledAfter sorted sorted) sorted.
Proof.
  unfold scheduledAfter. symmetry.
  rewrite <- (filter_split_perm ungrouped (touched sorted) (fun _ => true)).
  - clear. induction sorted as [|x l IH]; cbn; [constructor|now constructor].
  - intros x Hx. unfold ungrouped, touched.
    destruct (el_groupIds x) as [|g rest] eqn:Hg; [reflexivity|]. cbn. symmetry.
    apply existsb_exists. exists x. split; [exact Hx|].
    apply inGroup_primary. eauto.
  - intros x _. unfold ungrouped, touched. now destruct (el_groupIds x).
Qed.

Lemma allocate_schedule sorted :
  Permutation (map a_element (animatedFrames (allocate sorted))) sorted
  /\ currentMs (allocate sorted)
     == 1000 + sumQ (map (slot sorted) (map a_element (animatedFrames (allocate sorted)))).
Proof.
  rewrite allocate_frames. unfold allocate.
  destruct (run_schedules sorted sorted [] (initialState sorted)) as [Hp Hc]; [auto| |].
  { intros g. cbn. now rewrite createAnimationGroups_spec. }
  split; [|exact Hc].
  eapply Permutation_trans; [|apply scheduledAfter_all].
  eapply Permutation_trans; [|exact Hp].
  unfold scheduledAfter. cbn [List.filter app].
  rewrite (filter_none (touched [])); [reflexivity|].
  intros x _. unfold touched. now destruct (el_groupIds x).
Qed.

Lemma createSvgElements_length w k i frames :
  length (createSvgElements w k i frames) = length frames.
Proof.
  revert k i. induction frames as [|d frames IH]; intros k i; cbn; [reflexivity|].
  now rewrite IH.
Qed.


Lemma slot_perm l1 l2 e : Permutation l1 l2 -> slot l1 e = slot l2 e.
Proof.
  intros H. unfold slot. destruct (el_groupIds e) as [|g rest]; [reflexivity|].
  now rewrite (Permutation_length (filter_perm (inGroup g) _ _ H)).
Qed.

Lemma sumQ_slot_perm slots l1 l2 :
  Permutation l1 l2 -> sumQ (map (slot slots) l1) == sumQ (map (slot slots) l2).
Proof. intros H. apply sumQ_perm. now apply Permutation_map. Qed.


(** ** The timeline as a whole *)

Lemma chained_no_overlap c l c' :
  chained c l c' -> Forall (fun d => 0 <= durationMs d) l ->
  StronglySorted (fun d1 d2 => startMs d1 + durationMs d1 <= startMs d2) l.
Proof.
  revert c. induction l as [|d l IH]; intros c; cbn; [constructor|].
  intros [Hs Hl] Hpos. apply Forall_inv_tail in Hpos.
  constructor; [eapply IH; eassumption|].
  destruct (chained_bounds _ _ _ Hl Hpos) as [_ Hb].
  eapply List.Forall_impl; [|exact Hb]. cbn. intros a [? _]. lra.
Qed.

(** X4. When no grouped element carries a duration override and no override
    is negative, the descriptors tile the timeline between the two margins:
    the first starts at 1000 ms, each next one starts where the previous one
    ends, the last ends 1000 ms before the total duration; so every
    descriptor lies within the timeline and the list is in start order
    without overlap. *)
Theorem timeline_tiled (cfg : config) (w : env) (elements : list element) :
  (forall e, In e elements -> el_groupIds e <> [] -> durationOverride e = 0%Z) ->
  (forall e, In e elements -> (0 <= durationOverride e)%Z) ->
  chained 1000 (r_frames (generateWithExcalidrawAnimate cfg w elements))
          (r_duration (generateWithExcalidrawAnimate cfg w elements) - 1000)
  /\ Forall (fun d => 1000 <= startMs d
                      /\ startMs d + durationMs d
                         <= r_duration (generateWithExcalidrawAnimate cfg w elements) - 1000)
            (r_frames (generateWithExcalidrawAnimate cfg w elements))
  /\ StronglySorted (fun d1 d2 => startMs d1 + durationMs d1 <= startMs d2)
                    (r_frames (generateWithExcalidrawAnimate cfg w elements)).
Proof.
  intros Hno Hnn. cbn [generateWithExcalidrawAnimate r_frames r_duration].
  rewrite allocate_frames.
  set (sorted := sortElementsByDaiShiOrder elements).
  pose proof (membersSat_allocate elements []) as Hms. cbn [fold_left] in Hms.
  fold sorted in Hms.
  assert (Hch : chained 1000 (runFrames sorted (initialState sorted))
                        (currentMs (allocate sorted))).
  { apply (runFrames_chained sorted (initialState sorted)).
    eapply membersSat_impl; [|exact Hms]. intros g0 m [Hin Hm].
    apply Hno; [exact Hm|]. eapply inGroup_grouped, Hin. }
  assert (Hpos : Forall (fun d => 0 <= durationMs d) (runFrames sorted (initialState sorted))).
  { apply runFrames_nonneg.
    - eapply membersSat_impl; [|exact Hms]. intros g0 m [_ Hm]. now apply Hnn.
    - apply List.Forall_forall. intros e He. now apply Hnn, sorted_In. }
  assert (Hch' : chained 1000 (runFrames sorted (initialState sorted))
                         (currentMs (allocate sorted) + 1000 - 1000)).
  { eapply chained_end_compat; [|exact Hch]. ring. }
  split; [exact Hch'|]. split.
  - apply (chained_bounds _ _ _ Hch' Hpos).
  - eapply chained_no_overlap; eassumption.
Qed.

Lemma timeline_tiled_witness :
  (forall e, In e scenario -> el_groupIds e <> [] -> durationOverride e = 0%Z)
  /\ (forall e, In e scenario -> (0 <= durationOverride e)%Z)
  /\ chained 1000 (r_frames (generateWithExcalidrawAnimate defaultConfig
                               (constEnv "abcde" 0) scenario))
             (r_duration (generateWithExcalidrawAnimate defaultConfig
                            (constEnv "abcde" 0) scenario) - 1000).
Proof.
  assert (H1 : forall e, In e scenario -> el_groupIds e <> [] -> durationOverride e = 0%Z).
  { intros e [<-|[<-|[<-|[]]]] _; reflexivity. }
  assert (H2 : forall e, In e scenario -> (0 <= durationOverride e)%Z).
  { intros e [<-|[<-|[<-|[]]]]; vm_compute; discriminate. }
  split; [exact H1|]. split; [exact H2|].
  apply (timeline_tiled defaultConfig (constEnv "abcde" 0) scenario H1 H2).
Defined.

(** ** Resolving twice *)

Lemma sort_by_sorted_id {A} (cmp : A -> A -> Q) l :
  StronglySorted (cmp_le cmp) l -> sort_by cmp l = l.
Proof.
  induction 1 as [|x l Hs IH Hx]; cbn [sort_by]; [reflexivity|].
  rewrite IH. destruct Hx as [|y l Hxy _]; cbn [sort_insert]; [reflexivity|].
  apply Qle_bool_iff in Hxy. now rewrite Hxy.
Qed.

(** X5. Resolving the order of an already resolved list changes nothing. *)
Theorem sortElementsByDaiShiOrder_idempotent (elements : list element) :
  sortElementsByDaiShiOrder (sortElementsByDaiShiOrder elements)
  = sortElementsByDaiShiOrder elements.
Proof.
  unfold sortElementsByDaiShiOrder. apply sort_by_sorted_id.
  apply sort_by_sorted; [apply compareElements_skew|apply compareElements_trans].
Qed.

(** ** Hints encoded in ids *)

Lemma strip_prefix_Some p s r : strip_prefix p s = Some r -> s = p +:+ r.
Proof.
  revert s. induction p as [|a p IH]; intros s; cbn.
  - now intros [= ->].
  - destruct s as [|b s]; [discriminate|].
    destruct (Ascii.eqb_spec a b) as [->|]; [|discriminate].
    intros H. now rewrite (IH _ H).
Qed.

Lemma append_cons a p r : String a p +:+ r = String a (p +:+ r).
Proof. reflexivity. Qed.

Lemma append_nil r : EmptyString +:+ r = r.
Proof. reflexivity. Qed.

Lemma strip_prefix_app p r : strip_prefix p (p +:+ r) = Some r.
Proof.
  induction p as [|a p IH]; [reflexivity|].
  rewrite append_cons. cbn [strip_prefix]. now rewrite Ascii.eqb_refl.
Qed.

Lemma append_assoc (a b c : string) : (a +:+ b) +:+ c = a +:+ (b +:+ c).
Proof.
  induction a as [|x a IH]; [reflexivity|]. rewrite !append_cons. now rewrite IH.
Qed.

Lemma colon_free_app a b : colon_free (a +:+ b) = (colon_free a && colon_free b)%bool.
Proof.
  induction a as [|x a IH]; [reflexivity|].
  rewrite append_cons. cbn [colon_free]. rewrite IH. now rewrite andb_assoc.
Qed.

Lemma match_here_colon key s c : match_here key s = Some c -> colon_free s = false.
Proof.
  unfold match_here. destruct (strip_prefix (key +:+ ":") s) as [r|] eqn:E; [|discriminate].
  intros _. apply strip_prefix_Some in E. subst s.
  rewrite !colon_free_app.
  change (colon_free ":") with false. now rewrite andb_false_r.
Qed.

Lemma regex_match_colon_free key s : colon_free s = true -> regex_match key s = None.
Proof.
  induction s as [|c s IH]; intros H.
  - cbn. destruct (match_here key EmptyString) eqn:E; [|reflexivity].
    apply match_here_colon in E. congruence.
  - cbn [regex_match]. destruct (match_here key (String c s)) eqn:E.
    + apply match_here_colon in E. congruence.
    + apply IH. cbn in H. now apply andb_prop in H.
Qed.



Ltac eval_digit_val :=
  repeat match goal with
         | |- context [digit_val ?c] =>
             let v := eval vm_compute in (digit_val c) in change (digit_val c) with v
         end.

Lemma parse_digits_uint u acc :
  (0 <= acc)%Z ->
  parse_digits acc (DecimalString.NilEmpty.string_of_uint u)
  = Z.of_nat (Nat.of_uint_acc u (Z.to_nat acc)).
Proof.
  revert acc.
  induction u as [|u IH|u IH|u IH|u IH|u IH|u IH|u IH|u IH|u IH|u IH]; intros acc Hacc;
    cbn [DecimalString.NilEmpty.string_of_uint parse_digits Nat.of_uint_acc]; [lia|..];
    eval_digit_val; (rewrite IH by lia); rewrite Nat.tail_mul_spec; do 2 f_equal; lia.
Qed.

Lemma parse_decimal n : parse_digits 0 (decimal n) = Z.of_nat n.
Proof.
  unfold decimal, DecimalString.NilZero.string_of_uint.
  pose proof (DecimalNat.Unsigned.of_to n) as H. unfold Nat.of_uint in H.
  destruct (Nat.to_uint n) eqn:E; [cbn in H; subst; reflexivity|..];
    rewrite parse_digits_uint by lia; f_equal; exact H.
Qed.

Lemma all_digits_uint u : all_digits (DecimalString.NilEmpty.string_of_uint u) = true.
Proof. induction u; cbn; auto. Qed.

Lemma decimal_digits n :
  exists c s, decimal n = String c s /\ is_digit c = true /\ all_digits s = true.
Proof.
  unfold decimal, DecimalString.NilZero.string_of_uint.
  destruct (Nat.to_uint n) as [|u|u|u|u|u|u|u|u|u|u];
    cbn [DecimalString.NilEmpty.string_of_uint];
    eexists _, _; (split; [reflexivity|]); split; try reflexivity;
    apply all_digits_uint.
Qed.

Lemma take_digits_app ds suf :
  all_digits ds = true -> first_is_digit suf = false -> take_digits (ds +:+ suf) = ds.
Proof.
  induction ds as [|c ds IH]; intros Hd Hs.
  - rewrite append_nil. destruct suf as [|c suf]; [reflexivity|].
    cbn in Hs. cbn [take_digits]. now rewrite Hs.
  - rewrite append_cons. cbn [take_digits]. cbn [all_digits] in Hd.
    apply andb_prop in Hd as [-> Hd]. now rewrite IH.
Qed.

Lemma digit_not_minus c : is_digit c = true -> Ascii.eqb c minus_sign = false.
Proof.
  intros H. destruct (Ascii.eqb_spec c minus_sign) as [->|]; [|reflexivity].
  discriminate.
Qed.

Lemma match_here_number key c ds suf :
  is_digit c = true -> all_digits ds = true -> first_is_digit suf = false ->
  match_here key (key +:+ ":" +:+ String c ds +:+ suf) = Some (String c ds)
  /\ match_here key (key +:+ ":" +:+ String minus_sign (String c ds +:+ suf))
     = Some (String minus_sign (String c ds)).
Proof.
  intros Hc Hds Hsuf.
  assert (Ht : take_digits (String c ds +:+ suf) = String c ds)
    by (apply take_digits_app; [cbn; now rewrite Hc|exact Hsuf]).
  unfold match_here. rewrite <- !(append_assoc key ":"), !strip_prefix_app. split.
  - rewrite append_cons, (digit_not_minus c Hc), <- append_cons. now rewrite Ht.
  - rewrite Ascii.eqb_refl. now rewrite Ht.
Qed.

Lemma colon_prefix_unique a b x y :
  colon_free a = true -> colon_free b = true ->
  a +:+ String colon x = b +:+ String colon y -> a = b.
Proof.
  revert b. induction a as [|c a IH]; intros [|d b];
    rewrite ?append_cons, ?append_nil; cbn [colon_free]; intros Ha Hb E.
  - reflexivity.
  - injection E as <- _. now rewrite Ascii.eqb_refl in Hb.
  - injection E as -> _. now rewrite Ascii.eqb_refl in Ha.
  - injection E as -> E. apply andb_prop in Ha as [_ Ha], Hb as [_ Hb].
    f_equal. eapply IH; eassumption.
Qed.

Lemma length_append (a b : string) :
  String.length (a +:+ b) = (String.length a + String.length b)%nat.
Proof.
  induction a as [|x a IH]; [reflexivity|].
  rewrite append_cons. cbn [String.length]. now rewrite IH.
Qed.

Lemma append_self_length (p k : string) : p +:+ k = k -> p = EmptyString.
Proof.
  intros H. apply (f_equal String.length) in H.
  rewrite length_append in H. destruct p; [reflexivity|].
  cbn [String.length] in H. lia.
Qed.

(** The leftmost match lies behind a prefix that has no colon. *)
Lemma regex_match_skip_prefix key pre rest c :
  colon_free pre = true -> colon_free key = true ->
  match_here key (key +:+ ":" +:+ rest) = Some c ->
  regex_match key (pre +:+ key +:+ ":" +:+ rest) = Some c.
Proof.
  intros Hpre Hkey Hm. induction pre as [|a pre IH].
  - rewrite append_nil. destruct (key +:+ ":" +:+ rest) eqn:E; cbn [regex_match];
      now rewrite Hm.
  - rewrite append_cons. cbn [regex_match].
    destruct (match_here key (String a (pre +:+ key +:+ ":" +:+ rest))) as [c'|] eqn:E.
    + exfalso. unfold match_here in E.
      destruct (strip_prefix (key +:+ ":") (String a (pre +:+ key +:+ ":" +:+ rest)))
        as [r|] eqn:Es; [|discriminate].
      apply strip_prefix_Some in Es.
      rewrite <- append_cons, <- (append_assoc (String a pre) key) in Es.
      rewrite (append_assoc key ":" r) in Es.
      change (":" +:+ rest) with (String colon rest) in Es.
      change (":" +:+ r) with (String colon r) in Es.
      apply colon_prefix_unique in Es; [|now rewrite colon_free_app, Hpre|exact Hkey].
      apply append_self_length in Es. discriminate.
    + apply IH. cbn [colon_free] in Hpre. now apply andb_prop in Hpre.
Qed.

Lemma orZ_zero a : orZ a 0 = a.
Proof. unfold orZ. destruct (Z.eqb_spec a 0); congruence. Qed.



(** ** The audio timeline *)

Lemma audioTimelineLoop_total audioSegments script cur acc :
  ((length audioSegments <= length script)%nat ->
     exists tl, audioTimelineLoop audioSegments script cur acc = Some tl
       /\ length (tl_segments tl) = (length acc + length audioSegments)%nat
       /\ tl_totalDuration tl
          == cur + sumQ (map au_duration audioSegments)
             + 500 * inject_Z (Z.of_nat (length audioSegments)))
  /\ ((length script < length audioSegments)%nat ->
        audioTimelineLoop audioSegments script cur acc = None).
Proof.
  revert script cur acc.
  induction audioSegments as [|audio rest IH]; intros script cur acc.
  - split; [|cbn; lia]. intros _. eexists. split; [reflexivity|]. cbn. split; [lia|ring].
  - destruct script as [|s script].
    + split; [cbn; lia|reflexivity].
    + cbn [audioTimelineLoop length]. split.
      * intros Hl.
        match goal with
        | |- context [audioTimelineLoop rest script ?c ?a] =>
            destruct (proj1 (IH script c a)) as (tl & Htl & Hlen & Hsum); [lia|]
        end.
        exists tl. split; [exact Htl|]. split.
        -- rewrite Hlen, length_app. cbn. lia.
        -- rewrite Hsum, inject_Z_succ. cbn [map sumQ]. ring.
      * intros Hl. apply IH. lia.
Qed.

(** X8. [createAudioTimeline] fails exactly when the script has fewer
    segments than there are audio segments.  Otherwise the timeline has one
    segment for each audio segment and its total duration is the sum of the
    audio durations plus a pause of 500 ms after every segment, the last
    one included. *)
Theorem createAudioTimeline_total_duration
    (audioSegments : list audioSegment) (script : list (list element)) :
  ((length audioSegments <= length script)%nat ->
     exists tl, createAudioTimeline audioSegments script = Some tl
       /\ length (tl_segments tl) = length audioSegments
       /\ tl_totalDuration tl
          == sumQ (map au_duration audioSegments)
             + 500 * inject_Z (Z.of_nat (length audioSegments)))
  /\ ((length script < length audioSegments)%nat ->
        createAudioTimeline audioSegments script = None).
Proof.
  unfold createAudioTimeline.
  destruct (audioTimelineLoop_total audioSegments script 0 []) as [H1 H2].
  split; [|exact H2]. intros Hl. destruct (H1 Hl) as (tl & Htl & Hlen & Hsum).
  exists tl. split; [exact Htl|]. split; [exact Hlen|]. rewrite Hsum. ring.
Qed.

Lemma createAudioTimeline_total_duration_witness :
  (length [audioOf "group-0" 4000; audioOf "group-1" 2000]
   <= length [[bareElement "A" "rectangle" []]; [bareElement "C" "text" []]])%nat
  /\ exists tl,
       createAudioTimeline [audioOf "group-0" 4000; audioOf "group-1" 2000]
         [[bareElement "A" "rectangle" []]; [bareElement "C" "text" []]] = Some tl
       /\ tl_totalDuration tl == 7000.
Proof.
  assert (H : (length [audioOf "group-0" 4000; audioOf "group-1" 2000]
               <= length [[bareElement "A" "rectangle" []];
                          [bareElement "C" "text" []]])%nat) by (cbn; lia).
  split; [exact H|].
  destruct (proj1 (createAudioTimeline_total_duration
                     [audioOf "group-0" 4000; audioOf "group-1" 2000]
                     [[bareElement "A" "rectangle" []]; [bareElement "C" "text" []]]) H)
    as (tl & Htl & _ & Hsum).
  exists tl. split; [exact Htl|]. rewrite Hsum. reflexivity.
Defined.

(** ** Narrative groups *)

Lemma pushGroup_inv groups g start :
  Forall wellFormedGroup groups ->
  (forall (i : nat) g', groups !! i = Some g' -> pushedGroup i g') ->
  wellFormedGroup g -> numberedGroup (length groups) g -> start == ng_startTime g ->
  concat (map ng_elements (pushGroup groups g start))
    = concat (map ng_elements groups) ++ ng_elements g
  /\ Forall wellFormedGroup (pushGroup groups g start)
  /\ (forall (i : nat) g', pushGroup groups g start !! i = Some g' -> pushedGroup i g')
  /\ length (pushGroup groups g start) = S (length groups).
Proof.
  intros Hwf Hidx Hg Hn Hs. unfold pushGroup. split; [|split; [|split]].
  - rewrite map_app, concat_app. cbn. now rewrite app_nil_r.
  - apply Forall_app. split; [exact Hwf|]. constructor; [exact Hg|constructor].
  - intros i g' Hl. apply lookup_app_Some in Hl as [Hl|[Hge Hl]].
    + now apply Hidx.
    + apply list_lookup_singleton_Some in Hl as [Hi <-].
      replace i with (length groups) by lia.
      split; [exact Hn|]. eexists. split; [reflexivity|]. cbn. now rewrite Hs.
  - rewrite length_app. cbn. lia.
Qed.

Lemma groupStep_inv done st e :
  groupingInv done st -> groupingInv (done ++ [e]) (groupStep st e).
Proof.
  intros (Hcat & Hwf & Hidx & Hcur). unfold groupStep.
  destruct (gs_current st) as [g|] eqn:Ec.
  - destruct Hcur as (Hg & Hn & Hs). rewrite orb_false_r.
    destruct (shouldStartNewGroup e (Some g)) eqn:Es.
    + destruct (pushGroup_inv _ g (gs_start st) Hwf Hidx Hg Hn Hs)
        as (Hc' & Hwf' & Hidx' & Hlen).
      unfold groupingInv. cbn [gs_groups gs_current gs_start ng_elements].
      rewrite Hc', Hcat. split; [reflexivity|]. split; [exact Hwf'|].
      split; [exact Hidx'|]. split; [|split].
      * unfold wellFormedGroup. cbn [ng_elements ng_type].
        split; [discriminate|]. split; [cbn; lia|].
        split; [now repeat constructor|reflexivity].
      * split; [reflexivity|]. cbn [ng_startTime]. rewrite Hlen.
        destruct Hn as [_ Hst]. rewrite Hs, Hst, inject_Z_succ. ring.
      * reflexivity.
    + unfold groupingInv. cbn [gs_groups gs_current gs_start ng_elements].
      rewrite app_assoc, Hcat. split; [reflexivity|]. split; [exact Hwf|].
      split; [exact Hidx|].
      unfold shouldStartNewGroup in Es.
      destruct (String.eqb_spec (el_type e) (ng_type g)) as [Ety|]; [|discriminate].
      cbn [negb] in Es.
      destruct (Nat.leb_spec 3 (length (ng_elements g))) as [|Hlt]; [discriminate|].
      destruct (String.eqb_spec (el_type e) "text") as [|Hnt]; [discriminate|].
      destruct Hg as (Hne & Hle & Hty & Htx).
      split; [|split; [exact Hn|exact Hs]].
      repeat split; cbn [ng_elements ng_type].
      * now destruct (ng_elements g).
      * rewrite length_app. cbn. lia.
      * apply Forall_app. split; [exact Hty|]. now repeat constructor.
      * intros Ht. congruence.
  - destruct Hcur as [Hnil Hst]. cbn [shouldStartNewGroup orb].
    unfold groupingInv. cbn [gs_groups gs_current gs_start ng_elements].
    rewrite Hnil in *. cbn in Hcat. subst done.
    split; [reflexivity|]. split; [constructor|]. split; [intros i g' [=]|].
    split; [|split].
    + unfold wellFormedGroup. cbn [ng_elements ng_type].
      split; [discriminate|]. split; [cbn; lia|].
      split; [now repeat constructor|reflexivity].
    + split; [reflexivity|]. cbn. rewrite Hst. reflexivity.
    + reflexivity.
Qed.

Lemma groupLoop_inv rest done st :
  groupingInv done st -> groupingInv (done ++ rest) (fold_left groupStep rest st).
Proof.
  revert done st. induction rest as [|e rest IH]; intros done st H; cbn [fold_left].
  - now rewrite app_nil_r.
  - replace (done ++ e :: rest) with ((done ++ [e]) ++ rest) by now rewrite <- app_assoc.
    now apply IH, groupStep_inv.
Qed.

Lemma groupElements_concat (elements : list element) :
  concat (map ng_elements (groupElements elements)) = sort_by compareByTime elements.
Proof.
  unfold groupElements.
  pose proof (groupLoop_inv (sort_by compareByTime elements) []
                {| gs_groups := []; gs_current := None; gs_start := 0 |}) as H.
  cbn [app] in H. destruct H as (Hcat & Hwf & Hidx & Hcur).
  { unfold groupingInv. cbn [gs_groups gs_current gs_start map concat app].
    split; [reflexivity|]. split; [constructor|]. split; [intros i g [=]|].
    split; reflexivity. }
  destruct (gs_current _) as [g|].
  - destruct Hcur as (Hg & Hn & Hs).
    destruct (pushGroup_inv _ g _ Hwf Hidx Hg Hn Hs) as (Hc' & _). now rewrite Hc'.
  - now rewrite app_nil_r in Hcat.
Qed.

(** X9. The narrative groups cut the elements, taken in order of creation
    time, into consecutive runs: put one after the other the groups give
    back that list; no group is empty or has more than three elements; the
    elements of a group have the type of the group; a text always stands
    alone.  The [i]-th group is named group-i, starts at 3000 i
    milliseconds and ends 3000 ms later. *)
Theorem groupElements_partition (elements : list element) :
  concat (map ng_elements (groupElements elements)) = sort_by compareByTime elements
  /\ Forall wellFormedGroup (groupElements elements)
  /\ forall (i : nat) g, groupElements elements !! i = Some g -> pushedGroup i g.
Proof.
  unfold groupElements.
  pose proof (groupLoop_inv (sort_by compareByTime elements) []
                {| gs_groups := []; gs_current := None; gs_start := 0 |}) as H.
  cbn [app] in H. destruct H as (Hcat & Hwf & Hidx & Hcur).
  { unfold groupingInv. cbn [gs_groups gs_current gs_start map concat app].
    split; [reflexivity|]. split; [constructor|]. split; [intros i g [=]|].
    split; reflexivity. }
  destruct (gs_current _) as [g|].
  - destruct Hcur as (Hg & Hn & Hs).
    destruct (pushGroup_inv _ g _ Hwf Hidx Hg Hn Hs) as (Hc' & Hwf' & Hidx' & _).
    split; [now rewrite Hc'|]. split; assumption.
  - rewrite app_nil_r in Hcat. split; [exact Hcat|]. split; assumption.
Qed.

(** ** The narration of the drawing itself *)

Lemma map_imap_const {A B C} (f : B -> C) (h : A -> C) (g : nat -> A -> B) l :
  (forall i x, f (g i x) = h x) -> map f (imap g l) = map h l.
Proof.
  revert g. induction l as [|x l IH]; intros g H; cbn; [reflexivity|].
  rewrite H. f_equal. apply IH. intros i y. apply H.
Qed.

Lemma segmentTimestamps_ids seg :
  map ts_id (segmentTimestamps seg) = map el_id (seg_elements seg).
Proof. unfold segmentTimestamps. now apply map_imap_const. Qed.

Lemma covered_ids segs :
  map ts_id (flat_map segmentTimestamps segs)
  = map el_id (concat (map seg_elements segs)).
Proof.
  induction segs as [|s segs IH]; cbn; [reflexivity|].
  now rewrite !map_app, IH, segmentTimestamps_ids.
Qed.

Lemma hasTimestamp_In ts e : hasTimestamp ts e = true <-> In (el_id e) (map ts_id ts).
Proof.
  unfold hasTimestamp. rewrite existsb_exists, in_map_iff. split.
  - intros (t & Ht & E). apply String.eqb_eq in E. eauto.
  - intros (t & E & Ht). exists t. split; [exact Ht|]. now apply String.eqb_eq.
Qed.

Lemma fold_addRemaining_covered tl elements ts :
  (forall e, In e elements -> hasTimestamp ts e = true) ->
  fold_left (addRemaining tl) elements ts = ts.
Proof.
  induction elements as [|e elements IH]; intros H; cbn [fold_left]; [reflexivity|].
  unfold addRemaining at 2. rewrite (H e (or_introl eq_refl)).
  apply IH. intros x Hx. apply H. now right.
Qed.

(** X10. When the narration is made from the drawing itself, one audio
    segment for each narrative group, the timeline exists and its segments
    cover the whole drawing: the synchronised timestamps are those of the
    segments alone, one for each element in order of creation time, and no
    element is appended as remaining. *)
Theorem narration_of_the_drawing_covers_it
    (audioSegments : list audioSegment) (elements : list element) :
  length audioSegments = length (groupElements elements) ->
  exists tl,
    createAudioTimeline audioSegments (scriptElements elements) = Some tl
    /\ createSynchronizedTimestamps elements tl
       = flat_map segmentTimestamps (tl_segments tl)
    /\ map ts_id (createSynchronizedTimestamps elements tl)
       = map el_id (sort_by compareByTime elements).
Proof.
  intros Hlen.
  assert (Hl : (length audioSegments <= length (scriptElements elements))%nat)
    by (unfold scriptElements; rewrite length_map; lia).
  destruct (proj1 (audioTimelineLoop_total audioSegments
                     (scriptElements elements) 0 []) Hl) as (tl & Htl & _ & _).
  fold (createAudioTimeline audioSegments (scriptElements elements)) in Htl.
  exists tl. split; [exact Htl|].
  pose proof Htl as Hspec. unfold createAudioTimeline in Hspec.
  apply audioTimelineLoop_spec in Hspec as (segs & Hs & _ & _ & He).
  cbn [app] in Hs. subst segs.
  rewrite firstn_all2 in He by (unfold scriptElements in *; rewrite length_map in *; lia).
  assert (Hids : map ts_id (flat_map segmentTimestamps (tl_segments tl))
                 = map el_id (sort_by compareByTime elements)).
  { rewrite covered_ids, He. unfold scriptElements.
    now rewrite groupElements_concat. }
  assert (Hcov : createSynchronizedTimestamps elements tl
                 = flat_map segmentTimestamps (tl_segments tl)).
  { unfold createSynchronizedTimestamps. apply fold_addRemaining_covered.
    intros e Hin. apply hasTimestamp_In. rewrite Hids. apply in_map.
    eapply Permutation_in; [apply sort_by_perm|exact Hin]. }
  split; [exact Hcov|]. now rewrite Hcov.
Qed.

Lemma narration_of_the_drawing_covers_it_witness :
  length [audioOf "group-0" 4000; audioOf "group-1" 2000; audioOf "group-2" 1500]
  = length (groupElements scenario)
  /\ exists tl,
       createAudioTimeline [audioOf "group-0" 4000; audioOf "group-1" 2000; audioOf "group-2" 1500]
         (scriptElements scenario) = Some tl
       /\ map ts_id (createSynchronizedTimestamps scenario tl)
          = map el_id (sort_by compareByTime scenario).
Proof.
  assert (H : length [audioOf "group-0" 4000; audioOf "group-1" 2000; audioOf "group-2" 1500]
              = length (groupElements scenario)) by reflexivity.
  split; [exact H|].
  destruct (narration_of_the_drawing_covers_it
              [audioOf "group-0" 4000; audioOf "group-1" 2000; audioOf "group-2" 1500] scenario H)
    as (tl & Htl & _ & Hids).
  exists tl. split; [exact Htl|exact Hids].
Defined.

(** ** Visible elements *)

Lemma visibleAt_mono ts t1 t2 e :
  t1 <= t2 -> visibleAt ts t1 e = true -> visibleAt ts t2 e = true.
Proof.
  unfold visibleAt. intros Hle.
  destruct (List.find _ ts) as [t|]; [|discriminate].
  rewrite !Qle_bool_iff. lra.
Qed.

Lemma filter_filter_same {A} (p q : A -> bool) l :
  (forall x, p x = true -> q x = true) ->
  List.filter p (List.filter q l) = List.filter p l.
Proof.
  intros H. induction l as [|x l IH]; cbn; [reflexivity|].
  destruct (q x) eqn:Q; cbn.
  - now rewrite IH.
  - destruct (p x) eqn:P; [|exact IH]. apply H in P. congruence.
Qed.

(** X11. An element shown at some time has a timestamp and stays shown at
    every later time: what is visible at an earlier time is, in the same
    order, the part of what is visible later that was there already. *)
Theorem visible_elements_grow
    (elements : list element) (timestamps : list timestamp) (t1 t2 : Q) :
  t1 <= t2 ->
  getElementsAtTime (getElementsAtTime elements timestamps t2) timestamps t1
    = getElementsAtTime elements timestamps t1
  /\ forall e, In e (getElementsAtTime elements timestamps t1) ->
       In e (getElementsAtTime elements timestamps t2)
       /\ hasTimestamp timestamps e = true.
Proof.
  intros Hle. unfold getElementsAtTime. split.
  - apply filter_filter_same. intros e. now apply visibleAt_mono.
  - intros e [Hin Hv]%List.filter_In. split.
    + apply List.filter_In. split; [exact Hin|]. eapply visibleAt_mono; eassumption.
    + unfold visibleAt in Hv. unfold hasTimestamp.
      destruct (List.find _ timestamps) as [t|] eqn:E; [|discriminate].
      apply find_some in E as [Ht Hid]. apply existsb_exists. eauto.
Qed.

Lemma visible_elements_grow_witness :
  500 <= 1200
  /\ getElementsAtTime (getElementsAtTime scenario (createDefaultTimestamps scenario) 1200)
       (createDefaultTimestamps scenario) 500
     = getElementsAtTime scenario (createDefaultTimestamps scenario) 500.
Proof.
  assert (H : 500 <= 1200) by (unfold Qle; cbn; lia).
  split; [exact H|].
  apply (visible_elements_grow scenario (createDefaultTimestamps scenario) 500 1200 H).
Defined.

Lemma cursorChain_bounds c segs final :
  cursorChain c segs final -> Forall (fun s => 0 <= seg_duration s) segs ->
  c <= final
  /\ Forall (fun s => 0 <= seg_startTime s - c
                      /\ seg_startTime s + seg_duration s <= final) segs.
Proof.
  revert c. induction segs as [|s segs IH]; intros c; cbn.
  - intros -> _. split; [lra|constructor].
  - intros (Hs & _ & Hc) Hpos. pose proof (Forall_inv Hpos) as Hd. cbn beta in Hd.
    apply Forall_inv_tail in Hpos. destruct (IH _ Hc Hpos) as [Hle Hall].
    split; [lra|]. constructor; [rewrite Hs; lra|].
    eapply List.Forall_impl; [|exact Hall]. cbn. intros a [? ?]. split; lra.
Qed.

Lemma share_of_index (dur : Q) (n i : nat) :
  0 <= dur -> (i < n)%nat ->
  0 <= dur / inject_Z (Z.of_nat n) * inject_Z (Z.of_nat i)
  /\ dur / inject_Z (Z.of_nat n) * inject_Z (Z.of_nat i) <= dur.
Proof.
  intros Hd Hi.
  assert (Hn : 0 < inject_Z (Z.of_nat n)).
  { change 0 with (inject_Z 0). rewrite <- Zlt_Qlt. lia. }
  assert (Hin : inject_Z (Z.of_nat i) <= inject_Z (Z.of_nat n)).
  { rewrite <- Zle_Qle. lia. }
  pose proof (inject_Z_nat_nonneg i) as Hi0.
  assert (Hq : 0 <= dur / inject_Z (Z.of_nat n)).
  { apply Qle_shift_div_l; [exact Hn|]. lra. }
  split; [now apply Qmult_le_0_compat|].
  assert (E : dur / inject_Z (Z.of_nat n) * inject_Z (Z.of_nat n) == dur)
    by (field; lra).
  apply Qle_trans with (dur / inject_Z (Z.of_nat n) * inject_Z (Z.of_nat n));
    [|rewrite E; lra].
  rewrite !(Qmult_comm (dur / inject_Z (Z.of_nat n))).
  now apply Qmult_le_compat_r.
Qed.

Lemma segmentTimestamps_created seg final :
  0 <= seg_duration seg -> 0 <= seg_startTime seg ->
  seg_startTime seg + seg_duration seg <= final ->
  Forall (fun t => exists c, ts_created t = Some c /\ 0 <= c /\ c <= final)
         (segmentTimestamps seg).
Proof.
  intros Hd Hs Hf. apply List.Forall_forall. intros t Ht.
  apply list_elem_of_In in Ht. unfold segmentTimestamps in Ht.
  apply elem_of_lookup_imap in Ht as (i & e & -> & Hl).
  apply lookup_lt_Some in Hl.
  destruct (share_of_index (seg_duration seg) _ i Hd Hl) as [H0 H1].
  eexists. split; [reflexivity|]. split; lra.
Qed.

(** X12. Once the narration is over every element is shown: with
    non-negative audio durations, at any time from the total duration of
    the timeline on, the elements visible under the synchronised timestamps
    are all the elements. *)
Theorem all_elements_visible_after_narration
    (audioSegments : list audioSegment) (script : list (list element))
    (tl : timeline) (elements : list element) (t : Q) :
  createAudioTimeline audioSegments script = Some tl ->
  Forall (fun a => 0 <= au_duration a) audioSegments ->
  tl_totalDuration tl <= t ->
  getElementsAtTime elements (createSynchronizedTimestamps elements tl) t = elements.
Proof.
  intros Htl Hpos Ht. unfold createAudioTimeline in Htl.
  apply audioTimelineLoop_spec in Htl as (segs & Hs & Hc & Hd & _).
  cbn [app] in Hs. subst segs.
  destruct (fold_addRemaining tl elements (flat_map segmentTimestamps (tl_segments tl)))
    as (rem & Hsync & Hrem & _).
  fold (createSynchronizedTimestamps elements tl) in Hsync.
  assert (Hsegpos : Forall (fun s => 0 <= seg_duration s) (tl_segments tl)).
  { apply List.Forall_forall. intros s Hs.
    apply (in_map seg_duration) in Hs. rewrite Hd in Hs.
    apply in_map_iff in Hs as (a & <- & Ha).
    rewrite List.Forall_forall in Hpos. now apply Hpos. }
  destruct (cursorChain_bounds _ _ _ Hc Hsegpos) as [_ Hb].
  assert (Hall : Forall (fun x => exists c, ts_created x = Some c /\ 0 <= c
                                            /\ c <= tl_totalDuration tl)
                        (createSynchronizedTimestamps elements tl)).
  { rewrite Hsync. apply Forall_app. split.
    - apply List.Forall_forall. intros x Hx. apply in_flat_map in Hx as (s & Hs & Hx).
      rewrite List.Forall_forall in Hb, Hsegpos.
      destruct (Hb s Hs) as [H0 H1].
      pose proof (segmentTimestamps_created s (tl_totalDuration tl)
                    (Hsegpos s Hs) ltac:(lra) H1) as Hf.
      rewrite List.Forall_forall in Hf. now apply Hf.
    - eapply List.Forall_impl; [|exact Hrem]. cbn. intros x (Hcr & _).
      eexists. split; [exact Hcr|].
      destruct (cursorChain_bounds _ _ _ Hc Hsegpos) as [H0 _]. split; lra. }
  unfold getElementsAtTime.
  rewrite (filter_same _ (fun _ => true)).
  - clear. induction elements as [|x l IH]; cbn; [reflexivity|now rewrite IH].
  - intros e Hin. unfold visibleAt.
    destruct (fold_addRemaining tl elements
                (flat_map segmentTimestamps (tl_segments tl)))
      as (rem' & Hf & _ & Hcov).
    assert (Hhas : hasTimestamp (createSynchronizedTimestamps elements tl) e = true).
    { unfold createSynchronizedTimestamps. rewrite Hf. now apply Hcov. }
    unfold hasTimestamp in Hhas.
    destruct (List.find _ (createSynchronizedTimestamps elements tl)) as [x|] eqn:E.
    + apply find_some in E as [Hx _].
      rewrite List.Forall_forall in Hall. destruct (Hall x Hx) as (c & -> & H0 & Hc').
      apply Qle_bool_iff. unfold orQ.
      destruct (Qeq_bool c 0) eqn:Ez; [|lra].
      apply Qeq_bool_iff in Ez. lra.
    + apply existsb_exists in Hhas as (x & Hx & Hid).
      eapply find_none in E; [|exact Hx]. cbn in E. congruence.
Qed.

Lemma all_elements_visible_after_narration_witness :
  exists tl,
    createAudioTimeline [audioOf "group-0" 2000] [[bareElement "A" "rectangle" []]]
    = Some tl
    /\ Forall (fun a => 0 <= au_duration a) [audioOf "group-0" 2000]
    /\ tl_totalDuration tl <= 2500
    /\ getElementsAtTime scenario (createSynchronizedTimestamps scenario tl) 2500
       = scenario.
Proof.
  eexists.
  assert (H1 : createAudioTimeline [audioOf "group-0" 2000]
                 [[bareElement "A" "rectangle" []]]
               = Some {| tl_segments := _; tl_totalDuration := _ |}) by reflexivity.
  assert (H2 : Forall (fun a => 0 <= au_duration a) [audioOf "group-0" 2000]).
  { repeat constructor. unfold Qle; cbn; lia. }
  split; [exact H1|]. split; [exact H2|].
  assert (H3 : 0 + 2000 + 500 <= 2500) by (unfold Qle; cbn; lia).
  split; [exact H3|].
  apply (all_elements_visible_after_narration _ _ _ scenario 2500 H1 H2 H3).
Defined.

(** ** Durations of the frame-by-frame path *)

Lemma fold_Qmin_le l a :
  fold_left Qmin l a <= a /\ Forall (fun x => fold_left Qmin l a <= x) l.
Proof.
  revert a. induction l as [|x l IH]; intros a; cbn [fold_left].
  - split; [lra|constructor].
  - destruct (IH (Qmin a x)) as [H1 H2].
    pose proof (Q.le_min_l a x). pose proof (Q.le_min_r a x).
    split; [lra|]. constructor; [lra|exact H2].
Qed.

Lemma fold_Qmax_ge l a :
  a <= fold_left Qmax l a /\ Forall (fun x => x <= fold_left Qmax l a) l.
Proof.
  revert a. induction l as [|x l IH]; intros a; cbn [fold_left].
  - split; [lra|constructor].
  - destruct (IH (Qmax a x)) as [H1 H2].
    pose proof (Q.le_max_l a x). pose proof (Q.le_max_r a x).
    split; [lra|]. constructor; [lra|exact H2].
Qed.

Lemma fold_Qmin_lower b l a :
  b <= a -> Forall (fun x => b <= x) l -> b <= fold_left Qmin l a.
Proof.
  intros Ha Hl. revert a Ha. induction Hl as [|x l Hx _ IH]; intros a Ha; cbn [fold_left].
  - exact Ha.
  - apply IH. now apply Q.min_glb.
Qed.

Lemma fold_Qmax_upper b l a :
  a <= b -> Forall (fun x => x <= b) l -> fold_left Qmax l a <= b.
Proof.
  intros Ha Hl. revert a Ha. induction Hl as [|x l Hx _ IH]; intros a Ha; cbn [fold_left].
  - exact Ha.
  - apply IH. now apply Q.max_lub.
Qed.

(** X13. The duration of the frame-by-frame path is never below 1000 ms,
    and it spans the timestamps: it is at least the time from the creation
    of any element to the last update of any other. *)
Theorem calculateDuration_spans_timestamps (timestamps : list timestamp) :
  1000 <= calculateDuration timestamps
  /\ forall t t', In t timestamps -> In t' timestamps ->
       orQ (ts_updated t') (orQ (ts_created t') 0) - orQ (ts_created t) 0
       <= calculateDuration timestamps.
Proof.
  destruct timestamps as [|t0 rest];
    [split; [apply Qle_bool_iff; reflexivity|intros ? ? []]|].
  cbn [calculateDuration].
  match goal with
  | |- context [Qmax (?M - ?m) 1000] => set (hi := M); set (lo := m)
  end.
  split; [apply Q.le_max_r|].
  intros t t' Ht Ht'.
  eapply Qle_trans; [|apply Q.le_max_l].
  assert (H1 : lo <= orQ (ts_created t) 0).
  { unfold lo.
    destruct (fold_Qmin_le (map (fun t => orQ (ts_created t) 0) rest)
                (orQ (ts_created t0) 0)) as [Hm0 Hm].
    destruct Ht as [<-|Ht]; [exact Hm0|].
    rewrite List.Forall_forall in Hm. apply Hm.
    now apply (in_map (fun t => orQ (ts_created t) 0)). }
  assert (H2 : orQ (ts_updated t') (orQ (ts_created t') 0) <= hi).
  { unfold hi.
    destruct (fold_Qmax_ge
                (map (fun t => orQ (ts_updated t) (orQ (ts_created t) 0)) rest)
                (orQ (ts_updated t0) (orQ (ts_created t0) 0))) as [HM0 HM].
    destruct Ht' as [<-|Ht']; [exact HM0|].
    rewrite List.Forall_forall in HM. apply HM.
    now apply (in_map (fun t => orQ (ts_updated t) (orQ (ts_created t) 0))). }
  lra.
Qed.

Lemma Qmax_eq a b c : a == b -> Qmax a c == Qmax b c.
Proof.
  intros E. apply Qle_antisym; apply Q.max_lub;
    try apply Q.le_max_r; (eapply Qle_trans; [|apply Q.le_max_l]); lra.
Qed.

Lemma calculateDuration_exact timestamps lo hi :
  (forall t, In t timestamps ->
     lo <= orQ (ts_created t) 0
     /\ orQ (ts_updated t) (orQ (ts_created t) 0) <= hi) ->
  (exists t, In t timestamps /\ orQ (ts_created t) 0 == lo) ->
  (exists t, In t timestamps /\ orQ (ts_updated t) (orQ (ts_created t) 0) == hi) ->
  calculateDuration timestamps == Qmax (hi - lo) 1000.
Proof.
  intros Hall (tl & Htl & Hlo) (th & Hth & Hhi).
  destruct timestamps as [|t0 rest]; [destruct Htl|].
  cbn [calculateDuration].
  match goal with
  | |- context [Qmax (?M - ?m) 1000] => set (M' := M); set (m' := m)
  end.
  assert (Hm : m' == lo).
  { unfold m'. apply Qle_antisym.
    - destruct (fold_Qmin_le (map (fun t => orQ (ts_created t) 0) rest)
                  (orQ (ts_created t0) 0)) as [Hm0 Hm].
      rewrite <- Hlo. destruct Htl as [<-|Htl]; [exact Hm0|].
      rewrite List.Forall_forall in Hm. apply Hm.
      now apply (in_map (fun t => orQ (ts_created t) 0)).
    - apply fold_Qmin_lower; [apply Hall; now left|].
      apply List.Forall_forall. intros x (t & <- & Ht)%in_map_iff.
      apply Hall. now right. }
  assert (HM : M' == hi).
  { unfold M'. apply Qle_antisym.
    - apply fold_Qmax_upper; [apply Hall; now left|].
      apply List.Forall_forall. intros x (t & <- & Ht)%in_map_iff.
      apply Hall. now right.
    - destruct (fold_Qmax_ge
                  (map (fun t => orQ (ts_updated t) (orQ (ts_created t) 0)) rest)
                  (orQ (ts_updated t0) (orQ (ts_created t0) 0))) as [HM0 HM].
      rewrite <- Hhi. destruct Hth as [<-|Hth]; [exact HM0|].
      rewrite List.Forall_forall in HM. apply HM.
      now apply (in_map (fun t => orQ (ts_updated t) (orQ (ts_created t) 0))). }
  apply Qmax_eq. lra.
Qed.

Lemma orQ_Some_zero q : orQ (Some q) 0 == q.
Proof.
  unfold orQ. destruct (Qeq_bool q 0) eqn:E; [|reflexivity].
  apply Qeq_bool_iff in E. now rewrite E.
Qed.

Lemma orQ_Some_pos q b : 0 < q -> orQ (Some q) b == q.
Proof.
  intros H. unfold orQ. destruct (Qeq_bool q 0) eqn:E; [|reflexivity].
  apply Qeq_bool_iff in E. lra.
Qed.

(** X14. Without narration the [i]-th element is given the slot from 500 i
    to 500 (i + 1) milliseconds, and for a drawing that is not empty the
    duration of the frame-by-frame path is the larger of 500 ms for each
    element and 1000 ms. *)
Theorem default_timestamps_duration (elements : list element) :
  elements <> [] ->
  (forall (i : nat) e, elements !! i = Some e ->
     createDefaultTimestamps elements !! i
     = Some {| ts_id := el_id e;
               ts_created := Some (inject_Z (Z.of_nat i) * 500);
               ts_updated := Some ((inject_Z (Z.of_nat i) + 1) * 500) |})
  /\ calculateDuration (createDefaultTimestamps elements)
     == Qmax (500 * inject_Z (Z.of_nat (length elements))) 1000.
Proof.
  intros Hne.
  assert (Hlook : forall (i : nat) e, elements !! i = Some e ->
            createDefaultTimestamps elements !! i
            = Some {| ts_id := el_id e;
                      ts_created := Some (inject_Z (Z.of_nat i) * 500);
                      ts_updated := Some ((inject_Z (Z.of_nat i) + 1) * 500) |}).
  { intros i e H. unfold createDefaultTimestamps. now rewrite list_lookup_imap, H. }
  split; [exact Hlook|].
  rewrite (calculateDuration_exact _ 0 (500 * inject_Z (Z.of_nat (length elements)))).
  - apply Qmax_eq. ring.
  - intros t Ht. apply list_elem_of_In in Ht. unfold createDefaultTimestamps in Ht.
    apply elem_of_lookup_imap in Ht as (i & e & -> & Hl).
    apply lookup_lt_Some in Hl. cbn [ts_created ts_updated].
    pose proof (inject_Z_nat_nonneg i) as Hi.
    assert (Hin : inject_Z (Z.of_nat i) + 1 <= inject_Z (Z.of_nat (length elements))).
    { change 1 with (inject_Z 1). rewrite <- inject_Z_plus, <- Zle_Qle. lia. }
    pose proof (orQ_Some_zero (inject_Z (Z.of_nat i) * 500)) as E1.
    pose proof (orQ_Some_pos ((inject_Z (Z.of_nat i) + 1) * 500)
                  (orQ (Some (inject_Z (Z.of_nat i) * 500)) 0) ltac:(lra)) as E2.
    split; lra.
  - destruct elements as [|e0 rest]; [congruence|].
    eexists. split; [left; reflexivity|]. cbn [ts_created].
    pose proof (orQ_Some_zero (inject_Z (Z.of_nat 0) * 500)) as E1.
    rewrite E1. reflexivity.
  - destruct (lookup_lt_is_Some_2 elements (length elements - 1)) as [e He].
    { destruct elements; [congruence|]. cbn. lia. }
    eexists. split.
    + apply list_elem_of_In, list_elem_of_lookup. eexists. apply (Hlook _ _ He).
    + cbn [ts_updated ts_created].
      pose proof (inject_Z_nat_nonneg (length elements - 1)) as Hi.
      pose proof (orQ_Some_pos ((inject_Z (Z.of_nat (length elements - 1)) + 1) * 500)
                    (orQ (Some (inject_Z (Z.of_nat (length elements - 1)) * 500)) 0)
                    ltac:(lra)) as E2.
      assert (El : inject_Z (Z.of_nat (length elements))
                   == inject_Z (Z.of_nat (length elements - 1)) + 1).
      { rewrite <- inject_Z_succ.
        replace (S (length elements - 1)) with (length elements)
          by (destruct elements; [congruence|cbn; lia]).
        reflexivity. }
      lra.
Qed.

Lemma default_timestamps_duration_witness :
  scenario <> []
  /\ calculateDuration (createDefaultTimestamps scenario) == 1500.
Proof.
  assert (H : scenario <> []) by discriminate.
  split; [exact H|].
  rewrite (proj2 (default_timestamps_duration scenario H)). reflexivity.
Defined.

(** ** Progress tables *)

Lemma progress_in_unit (i n : nat) :
  (i < n)%nat ->
  0 < (inject_Z (Z.of_nat i) + 1) / inject_Z (Z.of_nat n)
  /\ (inject_Z (Z.of_nat i) + 1) / inject_Z (Z.of_nat n) <= 1.
Proof.
  intros Hi.
  assert (Hn : 0 < inject_Z (Z.of_nat n)).
  { change 0 with (inject_Z 0). rewrite <- Zlt_Qlt. lia. }
  assert (Hin : inject_Z (Z.of_nat i) + 1 <= inject_Z (Z.of_nat n)).
  { change 1 with (inject_Z 1). rewrite <- inject_Z_plus, <- Zle_Qle. lia. }
  pose proof (inject_Z_nat_nonneg i) as Hi0. split.
  - apply Qlt_shift_div_l; [exact Hn|]. lra.
  - apply Qle_shift_div_r; [exact Hn|]. lra.
Qed.

(** X15. A path is cut into at least one segment, whatever its complexity
    says: into [max 1 (floor segments)] of them.  The [i]-th segment carries
    the progress (i + 1) / count, a value above 0 and at most 1, and the
    last segment completes the path with progress 1. *)
Theorem segmentPath_progress (pd : pathData) :
  length (segmentPath pd) = Z.to_nat (Z.max 1 (Qfloor (pd_segments pd)))
  /\ (1 <= length (segmentPath pd))%nat
  /\ (forall (i : nat) p, segmentPath pd !! i = Some p ->
        fst p = i
        /\ snd p == (inject_Z (Z.of_nat i) + 1)
                    / inject_Z (Z.of_nat (length (segmentPath pd)))
        /\ 0 < snd p /\ snd p <= 1)
  /\ exists q, segmentPath pd !! (length (segmentPath pd) - 1)%nat
               = Some ((length (segmentPath pd) - 1)%nat, q) /\ q == 1.
Proof.
  unfold segmentPath. set (n := Z.max 1 (Qfloor (pd_segments pd))).
  assert (Hn : (1 <= n)%Z) by (unfold n; lia).
  assert (Hlen : length (map (fun i : nat => (i, (inject_Z (Z.of_nat i) + 1) / inject_Z n))
                             (seq 0 (Z.to_nat n))) = Z.to_nat n)
    by now rewrite length_map, length_seq.
  rewrite Hlen.
  assert (Hnn : inject_Z n = inject_Z (Z.of_nat (Z.to_nat n)))
    by (rewrite Z2Nat.id by lia; reflexivity).
  split; [reflexivity|]. split; [lia|]. split.
  - intros i p Hl. rewrite list_lookup_fmap in Hl.
    destruct (seq 0 (Z.to_nat n) !! i) as [j|] eqn:Ej; [|discriminate].
    apply lookup_seq in Ej as [-> Hi]. injection Hl as <-. cbn [fst snd].
    rewrite Hnn. split; [reflexivity|]. split; [reflexivity|].
    now apply progress_in_unit.
  - eexists. split.
    + rewrite list_lookup_fmap, lookup_seq_lt by lia. reflexivity.
    + rewrite Hnn.
      assert (E : inject_Z (Z.of_nat (0 + (Z.to_nat n - 1))) + 1
                  == inject_Z (Z.of_nat (Z.to_nat n))).
      { rewrite <- inject_Z_succ. replace (S (0 + (Z.to_nat n - 1))) with (Z.to_nat n) by lia.
        reflexivity. }
      rewrite E. field.
      change 0 with (inject_Z 0). rewrite inject_Z_injective. lia.
Qed.

(** X16. The progress table of a freehand element has one entry for each
    recorded point, in order: entry [i] names point [i] and carries the
    progress (i + 1) / count, above 0 and at most 1.  Without points the
    table is empty. *)
Theorem freedraw_progress_table (e : element) :
  (el_points e = None -> createFreedrawInterpolation e 0 = [])
  /\ forall pts, el_points e = Some pts ->
       length (createFreedrawInterpolation e (length pts)) = length pts
       /\ forall (i : nat) p, pts !! i = Some p ->
            exists s, createFreedrawInterpolation e (length pts) !! i = Some s
              /\ fs_pointIndex s = i /\ fs_point s = p
              /\ fs_progress s == (inject_Z (Z.of_nat i) + 1)
                                  / inject_Z (Z.of_nat (length pts))
              /\ 0 < fs_progress s /\ fs_progress s <= 1.
Proof.
  unfold createFreedrawInterpolation. split; [now intros ->|].
  intros pts ->. split; [apply length_imap|].
  intros i p Hp. eexists. rewrite list_lookup_imap, Hp. split; [reflexivity|].
  cbn [fs_pointIndex fs_point fs_progress].
  split; [reflexivity|]. split; [reflexivity|]. split; [reflexivity|].
  apply progress_in_unit. now apply lookup_lt_Some in Hp.
Qed.

(** ** The frame loop *)

Lemma calculateDuration_pos timestamps : 0 < calculateDuration timestamps.
Proof.
  assert (1000 <= calculateDuration timestamps).
  { destruct timestamps; [apply Qle_bool_iff; reflexivity|].
    cbn [calculateDuration]. apply Q.le_max_r. }
  lra.
Qed.

Lemma scale_mono (x y total d s : Q) :
  x <= y -> 0 < total -> 0 <= d -> 0 <= s ->
  x / total * d * s <= y / total * d * s.
Proof.
  intros Hxy Ht Hd Hs.
  assert (Hdiv : x / total <= y / total).
  { apply Qle_shift_div_l; [exact Ht|].
    assert (E : x / total * total == x) by (field; lra). lra. }
  apply Qmult_le_compat_r; [|exact Hs]. now apply Qmult_le_compat_r.
Qed.



(** ** Parts of a descriptor *)

Lemma createElementAnimation_fill e s dur f :
  a_fill (createElementAnimation e s dur) = Some f ->
  exists sd, a_strokeDuration (createElementAnimation e s dur) = Some sd
    /\ fill_startMs f = s + sd
    /\ fill_element f = e.
Proof.
  unfold a_fill, a_strokeDuration. rewrite createElementAnimation_kind.
  destruct (getElementAnimationType e);
    unfold animatePath, animatePolygon, animateText, animateFreedraw,
           animateImage, animateGeneric, mkAnimation; cbn [a_kind];
    try discriminate.
  rewrite animateFillPath_hasFill. destruct (hasFill e); [|discriminate].
  intros [= <-]. eexists. split; [reflexivity|]. split; reflexivity.
Qed.


(** ** The SVG of a polygon *)



(** ** The speed factor of a narration *)

(** X20. For the total duration of a timeline built from non-negative audio
    durations the speed factor is a number between 0.5 and 2, as soon as
    there is an audio segment or an element. *)
Theorem speed_factor_of_a_narration
    (audioSegments : list audioSegment) (script : list (list element))
    (tl : timeline) (elementCount : nat) :
  createAudioTimeline audioSegments script = Some tl ->
  Forall (fun a => 0 <= au_duration a) audioSegments ->
  audioSegments <> [] \/ elementCount <> 0%nat ->
  exists q, calculateAnimationSpeed elementCount (tl_totalDuration tl) = Fin q
            /\ 0.5 <= q /\ q <= 2.
Proof.
  intros Htl Hpos Hne.
  assert (Hlen : (length audioSegments <= length script)%nat).
  { destruct (Nat.le_gt_cases (length audioSegments) (length script)) as [H|H];
      [exact H|].
    apply (proj2 (audioTimelineLoop_total audioSegments script 0 [])) in H.
    unfold createAudioTimeline in Htl. congruence. }
  destruct (proj1 (audioTimelineLoop_total audioSegments script 0 []) Hlen)
    as (tl' & Htl' & _ & Hsum).
  unfold createAudioTimeline in Htl. rewrite Htl in Htl'. injection Htl' as <-.
  assert (Hs : 0 <= sumQ (map au_duration audioSegments)).
  { clear -Hpos. induction Hpos as [|a l Ha _ IH]; cbn [map sumQ]; lra. }
  pose proof (inject_Z_nat_nonneg (length audioSegments)) as Hn.
  apply calculateAnimationSpeed_clamped; [lra|].
  destruct Hne as [Ha|He]; [right|now left].
  assert (inject_Z 1 <= inject_Z (Z.of_nat (length audioSegments))) as H1.
  { rewrite <- Zle_Qle. destruct audioSegments; [congruence|cbn; lia]. }
  change (inject_Z 1) with 1 in H1. lra.
Qed.

Lemma speed_factor_of_a_narration_witness :
  exists tl q,
    createAudioTimeline [audioOf "group-0" 2000] [[bareElement "A" "rectangle" []]]
    = Some tl
    /\ calculateAnimationSpeed 1 (tl_totalDuration tl) = Fin q
    /\ 0.5 <= q /\ q <= 2.
Proof.
  assert (H1 : createAudioTimeline [audioOf "group-0" 2000]
                 [[bareElement "A" "rectangle" []]]
               = Some {| tl_segments := _; tl_totalDuration := _ |}) by reflexivity.
  assert (H2 : Forall (fun a => 0 <= au_duration a) [audioOf "group-0" 2000]).
  { repeat constructor. unfold Qle; cbn; lia. }
  destruct (speed_factor_of_a_narration _ _ _ 1 H1 H2 (or_intror (Nat.neq_succ_0 0)))
    as (q & Hq & Hb).
  eexists _, q. split; [exact H1|]. split; [exact Hq|exact Hb].
Defined.

(** ** The group records *)



(** ** Instances of the properties above *)

Lemma allocate_processes_every_group_witness :
  exists g, groups (allocate (sortElementsByDaiShiOrder scenario)) !! "g1" = Some g
            /\ g_processed g = true
            /\ g_elements g = List.filter (inGroup "g1") (sortElementsByDaiShiOrder scenario)
            /\ g_elements g <> [].
Proof.
  destruct (groups (allocate (sortElementsByDaiShiOrder scenario)) !! "g1")
    as [g|] eqn:E.
  - exists g. split; [reflexivity|].
    exact (allocate_processes_every_group scenario "g1" g E).
  - rewrite allocate_groupAfter in E. discriminate E.
Defined.


Lemma groupElements_partition_witness :
  exists g, groupElements scenario !! 0%nat = Some g /\ pushedGroup 0 g.
Proof.
  destruct (groupElements scenario !! 0%nat) as [g|] eqn:E.
  - exists g. split; [reflexivity|].
    exact (proj2 (proj2 (groupElements_partition scenario)) 0%nat g E).
  - vm_compute in E. discriminate E.
Defined.

Lemma calculateDuration_spans_timestamps_witness :
  exists t t',
    In t (createDefaultTimestamps scenario) /\ In t' (createDefaultTimestamps scenario)
    /\ ts_id t = "A" /\ ts_id t' = "C"
    /\ orQ (ts_updated t') (orQ (ts_created t') 0) - orQ (ts_created t) 0
       <= calculateDuration (createDefaultTimestamps scenario).
Proof.
  eexists _, _.
  assert (H1 : In {| ts_id := "A"; ts_created := Some (inject_Z (Z.of_nat 0) * 500);
                     ts_updated := Some ((inject_Z (Z.of_nat 0) + 1) * 500) |}
                  (createDefaultTimestamps scenario)) by (left; reflexivity).
  assert (H2 : In {| ts_id := "C"; ts_created := Some (inject_Z (Z.of_nat 2) * 500);
                     ts_updated := Some ((inject_Z (Z.of_nat 2) + 1) * 500) |}
                  (createDefaultTimestamps scenario))
    by (right; right; left; reflexivity).
  split; [exact H1|]. split; [exact H2|].
  split; [reflexivity|]. split; [reflexivity|].
  exact (proj2 (calculateDuration_spans_timestamps (createDefaultTimestamps scenario))
           _ _ H1 H2).
Defined.

Lemma segmentPath_progress_witness :
  exists p, segmentPath (generatePathData (bareElement "A" "line" [])) !! 3%nat = Some p
            /\ fst p = 3%nat /\ 0 < snd p /\ snd p <= 1.
Proof.
  destruct (segmentPath (generatePathData (bareElement "A" "line" [])) !! 3%nat)
    as [p|] eqn:E.
  - exists p. split; [reflexivity|].
    destruct (proj1 (proj2 (proj2 (segmentPath_progress
                (generatePathData (bareElement "A" "line" []))))) 3%nat p E)
      as (Hi & _ & Hlo & Hhi).
    split; [exact Hi|]. split; [exact Hlo|exact Hhi].
  - vm_compute in E. discriminate E.
Defined.

Lemma freedraw_progress_table_witness :
  let e := {| el_id := "f"; el_type := "freedraw"; el_x := None; el_y := None;
              el_width := None; el_height := None; el_groupIds := [];
              el_backgroundColor := None; el_roundness := false; el_text := None;
              el_fontSize := None; el_points := Some [(0, 0); (10, 5)];
              el_created := None; el_versionNonce := None |} in
  exists s, createFreedrawInterpolation e 2 !! 1%nat = Some s
            /\ fs_pointIndex s = 1%nat /\ fs_point s = (10, 5)
            /\ 0 < fs_progress s /\ fs_progress s <= 1.
Proof.
  intros e.
  destruct (proj2 (freedraw_progress_table e) [(0, 0); (10, 5)] eq_refl) as [_ H].
  destruct (H 1%nat (10, 5) eq_refl) as (s & Hs & Hi & Hp & _ & Hlo & Hhi).
  exists s. split; [exact Hs|]. split; [exact Hi|]. split; [exact Hp|].
  split; [exact Hlo|exact Hhi].
Defined.



(** ** The parts a descriptor can have *)

Lemma getElementAnimationType_rectangle e :
  el_type e = "rectangle" -> getElementAnimationType e = TyPolygon.
Proof. unfold getElementAnimationType. now intros ->. Qed.

(** X22. A line or arrow that has both roundness and a fill is classified
    path-with-fill, a class the descriptor factory has no case for: its
    descriptor is the generic one, without stroke split, fill or pointer.
    A fill part is present exactly for the polygon class with a fill. *)
Theorem rounded_filled_stroke_is_generic (e : element) (s dur : Q) :
  ((el_type e = "line" \/ el_type e = "arrow") ->
   el_roundness e = true -> hasFill e = true ->
     getElementAnimationType e = TyPathWithFill
     /\ a_type (createElementAnimation e s dur) = "generic-animation"
     /\ a_strokeDuration (createElementAnimation e s dur) = None
     /\ a_fill (createElementAnimation e s dur) = None
     /\ a_pointer (createElementAnimation e s dur) = None)
  /\ (a_fill (createElementAnimation e s dur) <> None
      <-> getElementAnimationType e = TyPolygon /\ hasFill e = true).
Proof.
  unfold a_type, a_strokeDuration, a_fill, a_pointer.
  rewrite createElementAnimation_kind. split.
  - intros Hty Hr Hf.
    assert (E : getElementAnimationType e = TyPathWithFill).
    { unfold getElementAnimationType. rewrite Hr, Hf. now destruct Hty as [-> | ->]. }
    rewrite E. cbn. auto.
  - destruct (getElementAnimationType e); cbn;
      try (split; [intros H; now contradiction H|intros [[=] _]]).
    rewrite animateFillPath_hasFill.
    destruct (hasFill e); split; easy.
Qed.

Lemma rounded_filled_stroke_is_generic_witness :
  let e := {| el_id := "l"; el_type := "arrow"; el_x := None; el_y := None;
              el_width := None; el_height := None; el_groupIds := [];
              el_backgroundColor := Some "#ff0000"; el_roundness := true;
              el_text := None; el_fontSize := None; el_points := None;
              el_created := None; el_versionNonce := None |} in
  a_type (createElementAnimation e 1000 500) = "generic-animation"
  /\ a_fill (createElementAnimation e 1000 500) = None
  /\ a_pointer (createElementAnimation e 1000 500) = None.
Proof.
  intros e.
  destruct (proj1 (rounded_filled_stroke_is_generic e 1000 500)
              (or_intror eq_refl) eq_refl eq_refl) as (_ & Ht & _ & Hf & Hp).
  split; [exact Ht|]. split; [exact Hf|exact Hp].
Defined.

(** X23. A descriptor carries a pointer motion exactly for the classes
    path, text and freedraw.  The element of such a descriptor is never a
    rectangle, so the rectangle branch of the pointer path is not taken by
    any descriptor; for a text the pointer rests on the centre of the
    element. *)
Theorem pointer_only_for_strokes_and_text (e : element) (s dur : Q) :
  (a_pointer (createElementAnimation e s dur) <> None
   <-> getElementAnimationType e = TyPath \/ getElementAnimationType e = TyText
       \/ getElementAnimationType e = TyFreedraw)
  /\ forall p, a_pointer (createElementAnimation e s dur) = Some p ->
       el_type e <> "rectangle"
       /\ ptr_element p = el_id e
       /\ (el_type e = "text" -> ptr_path p = generateGenericPointerPath e).
Proof.
  unfold a_pointer. rewrite createElementAnimation_kind. split.
  - destruct (getElementAnimationType e); cbn; split; try easy;
      intros H; try (now contradiction H); auto;
      destruct H as [H | [H | H]]; discriminate H.
  - intros p Hp. split; [|split].
    + intros Hr. rewrite (getElementAnimationType_rectangle e Hr) in Hp. discriminate Hp.
    + destruct (getElementAnimationType e); cbn in Hp; try discriminate Hp;
        now injection Hp as <-.
    + intros Ht.
      assert (E : getElementAnimationType e = TyText)
        by (unfold getElementAnimationType; now rewrite Ht).
      rewrite E in Hp. cbn in Hp. injection Hp as <-.
      cbn. unfold generatePointerPath. now rewrite Ht.
Qed.

Lemma pointer_only_for_strokes_and_text_witness :
  exists p, a_pointer (createElementAnimation (bareElement "C" "text" []) 1000 500)
            = Some p
            /\ ptr_element p = "C"
            /\ ptr_path p = generateGenericPointerPath (bareElement "C" "text" []).
Proof.
  destruct (a_pointer (createElementAnimation (bareElement "C" "text" []) 1000 500))
    as [p|] eqn:E.
  - exists p. split; [reflexivity|].
    destruct (proj2 (pointer_only_for_strokes_and_text
                       (bareElement "C" "text" []) 1000 500) p E) as (_ & Hi & Hp).
    split; [exact Hi|exact (Hp eq_refl)].
  - vm_compute in E. discriminate E.
Defined.
